(** * golang-lambda-deployer: the deployment pipeline and its log tail

    A shallow embedding of the [deployer] package and of [runDeploy]
    (latest revision: cmd entry point, pkg/deployer/*.go, pkg config).

    The program talks to three AWS clients, to git, to the Go toolchain and to
    the file system, and stops the process with [os.Exit(1)] at every failure
    site.  A run is modelled as a pair: the sequence of observable events it
    produced (requests sent, lines printed) and the way it ended.  The answers
    of the outside world are read from a [World] record, one field per call
    site; call sites inside a loop read a script of successive answers. *)

From Stdlib Require Import String Ascii List ZArith Lia Bool.
Import ListNotations.
Open Scope list_scope.
Open Scope string_scope.

(** ** The parts of Go's [strings] package the program uses *)

Module GoStrings.

(** [strings.HasSuffix]: [len(s) >= len(suffix) && s[len(s)-len(suffix):] == suffix]. *)
Definition HasSuffix (s suffix : string) : bool :=
  (String.length suffix <=? String.length s)%nat &&
  String.eqb
    (substring (String.length s - String.length suffix) (String.length suffix) s)
    suffix.

(** [strings.TrimSuffix]: one occurrence of the suffix is removed, if present. *)
Definition TrimSuffix (s suffix : string) : string :=
  if HasSuffix s suffix
  then substring 0 (String.length s - String.length suffix) s
  else s.

(** The ASCII white space of [strings.TrimSpace]:
    ['\t'], ['\n'], ['\v'], ['\f'], ['\r'] and [' '].  (The outputs of git
    that the program trims are ASCII; code points above 127 are left alone.) *)
Definition isSpace (c : ascii) : bool :=
  let n := nat_of_ascii c in
  ((9 <=? n) && (n <=? 13))%nat || (n =? 32)%nat.

Fixpoint trimLeft (s : string) : string :=
  match s with
  | EmptyString => EmptyString
  | String c r => if isSpace c then trimLeft r else s
  end.

Fixpoint trimRight (s : string) : string :=
  match s with
  | EmptyString => EmptyString
  | String c r =>
      match trimRight r with
      | EmptyString => if isSpace c then EmptyString else String c EmptyString
      | r' => String c r'
      end
  end.

Definition TrimSpace (s : string) : string := trimRight (trimLeft s).

(** [strings.Join(elems, sep)]. *)
Fixpoint Join (elems : list string) (sep : string) : string :=
  match elems with
  | [] => EmptyString
  | [e] => e
  | e :: rest => e ++ sep ++ Join rest sep
  end.

(** [strings.Contains(s, substr)]. *)
Fixpoint Contains (s substr : string) : bool :=
  prefix substr s ||
  match s with
  | EmptyString => false
  | String _ r => Contains r substr
  end.

(** The slice expression [s[0:n]], which panics when [n > len(s)]. *)
Definition slice_to (n : nat) (s : string) : option string :=
  if (n <=? String.length s)%nat then Some (substring 0 n s) else None.

End GoStrings.
Import GoStrings.

(** ** Runs: events and outcomes *)

(** Requests that leave the process: AWS API calls, child processes, files. *)
Inductive Call : Type :=
  (* AWS SDK configuration *)
  | LoadDefaultConfig (region : string)
  (* lambda *)
  | ListFunctions (Marker : option string)
  | GetFunctionConfiguration (FunctionName : string)
  | UpdateFunctionCode (FunctionName S3Bucket S3Key : string)
  | WaitFunctionUpdated (FunctionName : string) (maxWaitDur : Z)
  | PublishVersion (FunctionName : string)
  | UpdateAlias (FunctionName Name : string) (FunctionVersion : option string)
  (* s3 *)
  | ListBuckets
  | Upload (Bucket Key : string) (ServerSideEncryption : string)
  (* cloudwatchlogs *)
  | DescribeLogGroups (LogGroupNamePrefix NextToken : option string)
  | StartLiveTail (LogGroupIdentifiers : list string) (LogEventFilterPattern : string)
  | StreamClose
  (* child processes; [env] lists what is appended to os.Environ() *)
  | GitRevParseHEAD
  | GitStatusPorcelain
  | GoBuild (ldflags : string) (env : list string)
  (* files *)
  | Getwd
  | Chmod (name : string) (mode : Z)
  | OsCreate (name : string)
  | OsOpen (name : string)
  | ZipCreate (name : string)
  | IoCopy
  | ZipClose.

Inductive Event : Type :=
  | Called (c : Call)
  | Stdout (text : string)        (* fmt.Println / fmt.Printf *)
  | LogPrintln (msg : string)     (* log.Println: one rendered log line *)
  | LogFatalf (msg : string).     (* the message of log.Fatalf, before exit *)

(** How a piece of the program ends. *)
Inductive Res (A : Type) : Type :=
  | Done (a : A)           (* returned normally *)
  | Exit (code : Z)        (* os.Exit *)
  | Panic (why : string)   (* run-time panic: nil dereference, index or slice out of range *)
  | Blocked.               (* waits for an answer the world never gives *)
Arguments Done {A} a.
Arguments Exit {A} code.
Arguments Panic {A} why.
Arguments Blocked {A}.

Definition M (A : Type) : Type := (list Event * Res A)%type.

Definition trace {A} (m : M A) : list Event := fst m.
Definition outcome {A} (m : M A) : Res A := snd m.

Definition ret {A} (a : A) : M A := ([], Done a).

Definition bind {A B} (m : M A) (k : A -> M B) : M B :=
  match snd m with
  | Done a => ((fst m ++ fst (k a))%list, snd (k a))
  | Exit c => (fst m, Exit c)
  | Panic why => (fst m, Panic why)
  | Blocked => (fst m, Blocked)
  end.

Declare Scope run_scope.
Delimit Scope run_scope with run.
Notation "x <- m ;; k" := (bind m (fun x => k))
  (at level 100, m at next level, right associativity) : run_scope.
Notation "m ;; k" := (bind m (fun _ => k))
  (at level 100, right associativity) : run_scope.
Open Scope run_scope.

Definition emit (e : Event) : M unit := ([e], Done tt).
Definition os_Exit {A} (code : Z) : M A := ([], Exit code).
Definition panic {A} (why : string) : M A := ([], Panic why).
Definition blocked {A} : M A := ([], Blocked).

(** A request together with the answer the world gives to it. *)
Definition call {A} (c : Call) (answer : A) : M A := ([Called c], Done answer).

(** A request whose answer may never come. *)
Definition await {A} (c : Call) (answer : option A) : M A :=
  match answer with
  | Some a => ([Called c], Done a)
  | None => ([Called c], Blocked)
  end.

(** [fmt.Println(a)] and [fmt.Println(a, b)]: operands separated by a space,
    newline at the end. *)
Definition nl : string := String (ascii_of_nat 10) EmptyString.
Definition Println (a : string) : M unit := emit (Stdout (a ++ nl)).
Definition Println2 (a b : string) : M unit := emit (Stdout (a ++ " " ++ b ++ nl)).
(** [fmt.Printf] with the format already expanded. *)
Definition Printf (text : string) : M unit := emit (Stdout text).
(** [log.Fatalf]: write the message, then [os.Exit(1)]. *)
Definition log_Fatalf {A} (msg : string) : M A := ([LogFatalf msg], Exit 1).

(** [*p] for a [*string] field of an SDK output. *)
Definition deref (p : option string) : M string :=
  match p with
  | Some s => ret s
  | None => panic "invalid memory address or nil pointer dereference"
  end.

(** A fallible call with an [error] result only. *)
Definition error := string.

Inductive Result (A : Type) : Type :=
  | Ok (a : A)
  | Err (e : error).
Arguments Ok {A} a.
Arguments Err {A} e.

(** [if err != nil { fmt.Println(what, err); os.Exit(1) }]. *)
Definition check (what : string) (err : option error) : M unit :=
  match err with
  | None => ret tt
  | Some e => Println2 what e ;; os_Exit 1
  end.

Definition checked {A} (what : string) (r : Result A) : M A :=
  match r with
  | Ok a => ret a
  | Err e => Println2 what e ;; os_Exit 1
  end.

(** ** tail_logs.go: the consumer of the live-tail event stream *)

(** [cwtypes.LiveTailSessionLogEvent]; only [Message] is read. *)
Record LiveTailSessionLogEvent : Type := {
  Message : option string;
  Timestamp : option Z
}.

(** What a receive on [stream.Events()] yields: a member of the
    [StartLiveTailResponseStream] union, or the nil interface value (which is
    also what a closed channel yields). *)
Inductive Frame : Type :=
  | SessionStart
  | SessionUpdate (SessionResults : list LiveTailSessionLogEvent)
  | NilFrame
  | UnknownFrame (goType : string).

(** One receive, together with what [stream.Err()] would return while this
    frame is being handled. *)
Record StreamItem : Type := {
  frame : Frame;
  stream_Err : option error
}.

(** The range loop over [e.Value.SessionResults]: each message is
    dereferenced and given to [log.Println]. *)
Fixpoint printSessionResults (results : list LiveTailSessionLogEvent) : M unit :=
  match results with
  | [] => ret tt
  | logEvent :: rest =>
      msg <- deref (Message logEvent) ;;
      emit (LogPrintln msg) ;;
      printSessionResults rest
  end.

(** [handleEventStreamAsync]: the loop receives one item per iteration; when the
    script of receives is used up the goroutine waits on the channel. *)
Fixpoint handleEventStreamAsync (events : list StreamItem) : M unit :=
  match events with
  | [] => blocked
  | item :: rest =>
      match frame item with
      | SessionStart =>
          Println "Logs streaming session started" ;;
          handleEventStreamAsync rest
      | SessionUpdate results =>
          printSessionResults results ;;
          handleEventStreamAsync rest
      | other =>
          match stream_Err item with
          | Some err => log_Fatalf ("Error occured during streaming: " ++ err)
          | None =>
              match other with
              | UnknownFrame goType => log_Fatalf ("Unknown event type: " ++ goType)
              | _ => ret tt
              end
          end
      end
  end.

(** The log lines a run rendered, in order. *)
Fixpoint rendered (t : list Event) : list string :=
  match t with
  | [] => []
  | LogPrintln msg :: t' => msg :: rendered t'
  | _ :: t' => rendered t'
  end.

(** ** Configuration (package pkg) *)

Record DeployConfig : Type := {
  Env : string;
  AppName : string;
  LambdaName : string;           (* Combined AppName and Env *)
  SourceCodeFilename : string;   (* LambdaName + commit + '.zip' *)
  BuildsBucket : string;
  LogGroupName : string
}.

Definition isEmpty (s : string) : bool :=
  match s with EmptyString => true | _ => false end.

(** ** Outputs of the SDK operations, with their pointer fields *)

Module lambda.
Record FunctionConfiguration : Type := { FunctionName : option string }.
Record ListFunctionsOutput : Type := {
  Functions : list FunctionConfiguration;
  NextMarker : option string
}.
Record GetFunctionConfigurationOutput : Type := { Architectures : list string }.
Record PublishVersionOutput : Type := { Version : option string }.
End lambda.

Module s3.
Record Bucket : Type := { Name : option string }.
Record ListBucketsOutput : Type := { Buckets : list Bucket }.
End s3.

Module cloudwatchlogs.
Record LogGroup : Type := {
  LogGroupName : option string;
  Arn : option string
}.
Record DescribeLogGroupsOutput : Type := {
  LogGroups : list LogGroup;
  NextToken : option string
}.
End cloudwatchlogs.

(** What the two git commands of one [getCurrentGitCommit] call print. *)
Record GitAnswers : Type := {
  rev_parse_HEAD : Result string;
  status_porcelain : Result string
}.

(** ** The world of one run

    Every call site that runs at most once per run has one answer.  The two
    paginated listings read a script: the k-th request gets the k-th answer. *)
Record World : Type := {
  (* command line *)
  tail : bool;
  (* pkg.LoadConfig (the zero value when it fails) and filepath.Base(os.Getwd()) *)
  LoadConfig : DeployConfig;
  Getwd_Base : Result string;
  (* config.LoadDefaultConfig *)
  LoadDefaultConfig_err : option error;
  (* the resolver's listings *)
  ListFunctions_script : list (Result lambda.ListFunctionsOutput);
  ListBuckets_answer : Result s3.ListBucketsOutput;
  (* Build *)
  git_for_ldflags : GitAnswers;
  GetFunctionConfiguration_answer : Result lambda.GetFunctionConfigurationOutput;
  GoBuild_err : option error;
  Chmod_err : option error;
  git_for_filename : GitAnswers;
  OsCreate_zip_err : option error;
  OsOpen_bootstrap_err : option error;
  ZipCreate_err : option error;
  IoCopy_err : option error;
  ZipClose_err : option error;
  (* Deploy *)
  OsOpen_zip_err : option error;
  Upload_err : option error;
  UpdateFunctionCode_err : option error;
  Wait_answer : Z -> option (option error);
      (* what waiter.Wait returns, given maxWaitDur; None when it never returns *)
  PublishVersion_answer : Result lambda.PublishVersionOutput;
  UpdateAlias_err : option error;
  (* TailLogs *)
  DescribeLogGroups_script : list (Result cloudwatchlogs.DescribeLogGroupsOutput);
  DescribeLogGroups_by_prefix : Result cloudwatchlogs.DescribeLogGroupsOutput;
  StartLiveTail_err : option error;
  stream_events : list StreamItem    (* received before the stream is closed *)
}.

(** ** pkg: LoadConfigOrDefaults *)

Definition getAppName (w : World) : M string :=
  dir <- call Getwd (Getwd_Base w) ;;
  checked "Error getting current directory:" dir.

Definition LoadConfigOrDefaults (w : World) : M DeployConfig :=
  let config := LoadConfig w in
  let env := if isEmpty (Env config) then "stag" else Env config in
  appName <- (if isEmpty (AppName config) then getAppName w else ret (AppName config)) ;;
  let buildsBucket :=
    if isEmpty (BuildsBucket config) then "e4f-builds" else BuildsBucket config in
  let logGroupName :=
    if isEmpty (LogGroupName config)
    then "/aws/lambda/" ++ appName ++ "-" ++ env
    else LogGroupName config in
  ret {| Env := env;
         AppName := appName;
         LambdaName := appName ++ "-" ++ env;
         SourceCodeFilename := SourceCodeFilename config;
         BuildsBucket := buildsBucket;
         LogGroupName := logGroupName |}.

(** ** deployer: the resolver's listings *)

Definition InitAWSClient (w : World) : M unit :=
  err <- call (LoadDefaultConfig "us-east-1") (LoadDefaultConfig_err w) ;;
  check "Error loading AWS configuration:" err.

(** [names = append(names, *p)] for each pointer of a page. *)
Fixpoint appendNames (names : list string) (ps : list (option string)) : M (list string) :=
  match ps with
  | [] => ret names
  | p :: rest => n <- deref p ;; appendNames (names ++ [n])%list rest
  end.

(** The loop of [GetAvailableFunctions], one answer of the script per
    iteration; [functionNames] and [nextMarker] are the loop's variables. *)
Fixpoint GetAvailableFunctions_loop
    (script : list (Result lambda.ListFunctionsOutput))
    (functionNames : list string) (nextMarker : option string) : M (list string) :=
  emit (Called (ListFunctions nextMarker)) ;;
  match script with
  | [] => blocked
  | answer :: script' =>
      output <- checked "Error listing Lambda functions:" answer ;;
      functionNames <-
        appendNames functionNames (map lambda.FunctionName (lambda.Functions output)) ;;
      match lambda.NextMarker output with
      | None => ret functionNames
      | Some marker => GetAvailableFunctions_loop script' functionNames (Some marker)
      end
  end.

Definition GetAvailableFunctions (w : World) : M (list string) :=
  GetAvailableFunctions_loop (ListFunctions_script w) [] None.

Definition GetAvailableBuckets (w : World) : M (list string) :=
  answer <- call ListBuckets (ListBuckets_answer w) ;;
  output <- checked "Error listing S3 buckets:" answer ;;
  appendNames [] (map s3.Name (s3.Buckets output)).

Fixpoint getAvailableLogGroups_loop
    (script : list (Result cloudwatchlogs.DescribeLogGroupsOutput))
    (logGroupNames : list string) (nextToken : option string) : M (list string) :=
  emit (Called (DescribeLogGroups None nextToken)) ;;
  match script with
  | [] => blocked
  | answer :: script' =>
      output <- checked "Error describing log groups:" answer ;;
      logGroupNames <-
        appendNames logGroupNames
          (map cloudwatchlogs.LogGroupName (cloudwatchlogs.LogGroups output)) ;;
      match cloudwatchlogs.NextToken output with
      | None => ret logGroupNames
      | Some token => getAvailableLogGroups_loop script' logGroupNames (Some token)
      end
  end.

Definition getAvailableLogGroups (w : World) : M (list string) :=
  getAvailableLogGroups_loop (DescribeLogGroups_script w) [] None.

Fixpoint contains (slice : list string) (item : string) : bool :=
  match slice with
  | [] => false
  | s :: rest => if String.eqb s item then true else contains rest item
  end.

(** ** deployer: Build *)

Definition getCurrentGitCommit (git : GitAnswers) : M string :=
  commit <- call GitRevParseHEAD (rev_parse_HEAD git) ;;
  commit <- checked "Error getting current Git commit:" commit ;;
  (* Check for uncommitted changes *)
  status <- call GitStatusPorcelain (status_porcelain git) ;;
  status <- checked "Error checking git status:" status ;;
  commitStr <-
    match slice_to 7 (TrimSpace commit) with
    | Some short => ret short
    | None => panic "slice bounds out of range"
    end ;;
  ret (if (0 <? String.length status)%nat then commitStr ++ "-dirty" else commitStr).

Definition determineFunctionArch (w : World) (Config : DeployConfig) : M string :=
  answer <- call (GetFunctionConfiguration (LambdaName Config))
                 (GetFunctionConfiguration_answer w) ;;
  output <- checked "Error getting function configuration:" answer ;;
  Println2 "Architecture: " ("[" ++ Join (lambda.Architectures output) " " ++ "]") ;;
  match lambda.Architectures output with
  | [] => panic "index out of range [0] with length 0"
  | arch :: _ => ret (if String.eqb arch "arm64" then "arm64" else "amd64")
  end.

(** The octal literal [0755]. *)
Definition mode_0755 : Z := 7 * 64 + 5 * 8 + 5.

(** [Build] writes [SourceCodeFilename] into the deployer's configuration; the
    updated configuration is its result. *)
Definition Build (w : World) (Config : DeployConfig) : M DeployConfig :=
  currentGitCommit <- getCurrentGitCommit (git_for_ldflags w) ;;
  goarch <- determineFunctionArch w Config ;;
  err <- call (GoBuild ("-s -w -X main.Commit=" ++ currentGitCommit
                        ++ " -X microservice.CommitHash=" ++ currentGitCommit)
                       ["GOARCH=" ++ goarch; "CGO_ENABLED=0"; "GOOS=linux"])
              (GoBuild_err w) ;;
  check "Error building the project:" err ;;
  (* Ensure the binary is executable *)
  err <- call (Chmod "bootstrap" mode_0755) (Chmod_err w) ;;
  check "Error setting executable permissions on binary:" err ;;
  (* Create the ZIP file *)
  commit <- getCurrentGitCommit (git_for_filename w) ;;
  let Config :=
    {| Env := Env Config;
       AppName := AppName Config;
       LambdaName := LambdaName Config;
       SourceCodeFilename := LambdaName Config ++ "-" ++ commit ++ ".zip";
       BuildsBucket := BuildsBucket Config;
       LogGroupName := LogGroupName Config |} in
  err <- call (OsCreate (SourceCodeFilename Config)) (OsCreate_zip_err w) ;;
  check "Error creating zip file:" err ;;
  (* Add the binary to the ZIP file *)
  err <- call (OsOpen "bootstrap") (OsOpen_bootstrap_err w) ;;
  check "Error opening binary file:" err ;;
  err <- call (ZipCreate "bootstrap") (ZipCreate_err w) ;;
  check "Error creating zip entry:" err ;;
  err <- call IoCopy (IoCopy_err w) ;;
  check "Error writing binary to zip:" err ;;
  (* Ensure all data is written to the ZIP file *)
  err <- call ZipClose (ZipClose_err w) ;;
  check "Error finalizing zip file:" err ;;
  ret Config.

(** ** deployer: Deploy *)

(** [types.ServerSideEncryptionAes256]. *)
Definition ServerSideEncryptionAes256 : string := "AES256".

(** [5*time.Minute], a [time.Duration] in nanoseconds. *)
Definition Minute : Z := 60 * 1000000000.
Definition maxWaitDur : Z := 5 * Minute.

Definition uploadToS3 (w : World) (Config : DeployConfig) : M unit :=
  err <- call (OsOpen (SourceCodeFilename Config)) (OsOpen_zip_err w) ;;
  check "Error opening zip file:" err ;;
  err <- call (Upload (BuildsBucket Config) (SourceCodeFilename Config)
                      ServerSideEncryptionAes256)
              (Upload_err w) ;;
  check "Error uploading zip to S3:" err ;;
  Printf ("Released " ++ SourceCodeFilename Config ++ " to " ++ BuildsBucket Config ++ nl).

Definition Deploy (w : World) (Config : DeployConfig) : M unit :=
  uploadToS3 w Config ;;
  err <- call (UpdateFunctionCode (LambdaName Config) (BuildsBucket Config)
                                  (SourceCodeFilename Config))
              (UpdateFunctionCode_err w) ;;
  check "Error updating Lambda function code:" err ;;
  Println "Waiting for the function to be updated..." ;;
  err <- await (WaitFunctionUpdated (LambdaName Config) maxWaitDur)
               (Wait_answer w maxWaitDur) ;;
  check "Error waiting for function update:" err ;;
  answer <- call (PublishVersion (LambdaName Config)) (PublishVersion_answer w) ;;
  publishOutput <- checked "Error publishing new Lambda version:" answer ;;
  err <- call (UpdateAlias (LambdaName Config) "canary" (lambda.Version publishOutput))
              (UpdateAlias_err w) ;;
  check "Error updating Lambda alias 'canary':" err ;;
  version <- deref (lambda.Version publishOutput) ;;
  Printf ("Published new version " ++ version
          ++ " and updated alias 'canary' to point to it" ++ nl).

(** ** deployer: TailLogs *)

Definition getARNofLogGroup (w : World) (Config : DeployConfig) : M string :=
  answer <- call (DescribeLogGroups (Some (LogGroupName Config)) None)
                 (DescribeLogGroups_by_prefix w) ;;
  output <- checked "Error describing log groups:" answer ;;
  match cloudwatchlogs.LogGroups output with
  | [] =>
      Printf ("No log groups found for the given prefix " ++ LogGroupName Config ++ nl) ;;
      os_Exit 1
  | first :: _ =>
      arn <- deref (cloudwatchlogs.Arn first) ;;
      ret (TrimSuffix arn ":*")
  end.

Definition dq : string := String (ascii_of_nat 34) EmptyString.
Definition quoted (s : string) : string := dq ++ s ++ dq.

Definition LogEventFilterPattern : string :=
  "-" ++ quoted "START RequestId" ++ " -" ++ quoted "REPORT RequestId"
  ++ " -" ++ quoted "END RequestId" ++ " -" ++ quoted "INIT_START Runtime"
  ++ " -" ++ quoted "EXTENSION".

(** [go consumer]: the goroutine runs beside the caller, which sleeps for 300
    seconds and then closes the stream.  A fatal exit or a panic of the
    goroutine ends the process; otherwise the caller goes on, whether the
    goroutine has returned or still waits on the channel. *)
Definition go (consumer : M unit) : M unit :=
  match snd consumer with
  | Done _ | Blocked => (fst consumer, Done tt)
  | Exit code => (fst consumer, Exit code)
  | Panic why => (fst consumer, Panic why)
  end.

Definition TailLogs (w : World) (Config : DeployConfig) : M unit :=
  availableLogGroups <- getAvailableLogGroups w ;;
  (if negb (contains availableLogGroups (LogGroupName Config))
   then
     Printf ("Log group " ++ LogGroupName Config ++ " does not exist" ++ nl) ;;
     Printf ("Available log groups are: " ++ Join availableLogGroups ", " ++ nl) ;;
     os_Exit 1
   else ret tt) ;;
  arn <- getARNofLogGroup w Config ;;
  err <- call (StartLiveTail [arn] LogEventFilterPattern) (StartLiveTail_err w) ;;
  match err with
  | Some e => log_Fatalf ("Failed to start streaming: " ++ e)
  | None => ret tt
  end ;;
  go (handleEventStreamAsync (stream_events w)) ;;
  (* Close the stream (which ends the session) after a timeout *)
  call StreamClose tt.

(** ** cmd: runDeploy *)

Definition runDeploy (w : World) : M unit :=
  Config <- LoadConfigOrDefaults w ;;
  InitAWSClient w ;;
  availableFunctions <- GetAvailableFunctions w ;;
  (if negb (contains availableFunctions (LambdaName Config))
   then
     Printf ("Lambda function '" ++ LambdaName Config ++ "' does not exist" ++ nl) ;;
     Printf ("Available functions are: " ++ Join availableFunctions ", " ++ nl) ;;
     os_Exit 1
   else ret tt) ;;
  availableBuckets <- GetAvailableBuckets w ;;
  (if negb (contains availableBuckets (BuildsBucket Config))
   then
     Printf ("S3 bucket " ++ BuildsBucket Config ++ " does not exist" ++ nl) ;;
     Printf ("Available buckets are: " ++ Join availableBuckets ", " ++ nl) ;;
     os_Exit 1
   else ret tt) ;;
  (* Build and deploy the function *)
  Config <- Build w Config ;;
  Deploy w Config ;;
  if tail w then TailLogs w Config else ret tt.

(** The platform calls that change remote state. *)
Definition mutating (c : Call) : bool :=
  match c with
  | Upload _ _ _ | UpdateFunctionCode _ _ _ | PublishVersion _ | UpdateAlias _ _ _ => true
  | _ => false
  end.

Definition mutatingEvent (e : Event) : bool :=
  match e with
  | Called c => mutating c
  | _ => false
  end.

(** A run without mutating calls. *)
Definition quiet {A} (m : M A) : Prop :=
  Forall (fun e => mutatingEvent e = false) (trace m).

(** Resolution precedes mutation in the run of [w]: whenever the run issues a
    mutating call, the events [pre] before it contain the complete listing of
    functions and the complete listing of buckets, and the configured function
    and bucket are among the names listed.  With [withLogGroup] the same is
    asked of the listing of log groups and the configured log group. *)
Definition confirmed (listing : M (list string)) (name : string) (pre : list Event) : Prop :=
  exists t names before rest,
    listing = (t, Done names) /\
    contains names name = true /\
    pre = (before ++ t ++ rest)%list.

Definition resolved_before_mutation (withLogGroup : bool) (w : World) : Prop :=
  forall (pre : list Event) (c : Call) (post : list Event),
    trace (runDeploy w) = (pre ++ Called c :: post)%list ->
    mutating c = true ->
    exists t Config,
      LoadConfigOrDefaults w = (t, Done Config) /\
      confirmed (GetAvailableFunctions w) (LambdaName Config) pre /\
      confirmed (GetAvailableBuckets w) (BuildsBucket Config) pre /\
      (withLogGroup = true ->
       confirmed (getAvailableLogGroups w) (LogGroupName Config) pre).

(** The calls of the two mutating stages of [Deploy], in the order issued. *)
Definition isPublisherCall (c : Call) : bool :=
  match c with
  | Upload _ _ _ | UpdateFunctionCode _ _ _ => true
  | _ => false
  end.

Definition isPromoterCall (c : Call) : bool :=
  match c with
  | PublishVersion _ | UpdateAlias _ _ _ => true
  | _ => false
  end.

Fixpoint calls (keep : Call -> bool) (t : list Event) : list Call :=
  match t with
  | [] => []
  | Called c :: t' => if keep c then c :: calls keep t' else calls keep t'
  | _ :: t' => calls keep t'
  end.

(** ** The convergence waiter *)

(** Modelled from the spec: [lambda.FunctionUpdatedV2Waiter.Wait] belongs to
    the AWS SDK and is not among the sources.  Section 4.3 of the
    specification describes it: poll the function-status endpoint until it
    reports the update as fully applied, with a backoff between polls; a
    wall-clock ceiling bounds the wait, and exceeding it surfaces a timeout
    error.  A poll is what the endpoint reported and the time that passed
    until the next poll; the result is [None] while the script of polls does
    not decide. *)
Inductive UpdateStatus : Type := InProgress | Successful.

Record Poll : Type := {
  LastUpdateStatus : UpdateStatus;
  backoff : Z
}.

Definition timeoutError : error := "exceeded max wait time for FunctionUpdatedV2 waiter".

Fixpoint Waiter_poll (polls : list Poll) (ceiling waited : Z) : option (option error) :=
  match polls with
  | [] => None
  | p :: rest =>
      match LastUpdateStatus p with
      | Successful => Some None
      | InProgress =>
          let waited := (waited + backoff p)%Z in
          if (ceiling <=? waited)%Z then Some (Some timeoutError)
          else Waiter_poll rest ceiling waited
      end
  end.

Definition Waiter_Wait (polls : list Poll) (maxWait : Z) : option (option error) :=
  Waiter_poll polls maxWait 0.

Definition total_backoff (polls : list Poll) : Z :=
  fold_right (fun p acc => (backoff p + acc)%Z) 0%Z polls.

(** The world [w] with its waiter replaced. *)
Definition with_waiter (wait : Z -> option (option error)) (w : World) : World :=
  {| tail := tail w;
     LoadConfig := LoadConfig w;
     Getwd_Base := Getwd_Base w;
     LoadDefaultConfig_err := LoadDefaultConfig_err w;
     ListFunctions_script := ListFunctions_script w;
     ListBuckets_answer := ListBuckets_answer w;
     git_for_ldflags := git_for_ldflags w;
     GetFunctionConfiguration_answer := GetFunctionConfiguration_answer w;
     GoBuild_err := GoBuild_err w;
     Chmod_err := Chmod_err w;
     git_for_filename := git_for_filename w;
     OsCreate_zip_err := OsCreate_zip_err w;
     OsOpen_bootstrap_err := OsOpen_bootstrap_err w;
     ZipCreate_err := ZipCreate_err w;
     IoCopy_err := IoCopy_err w;
     ZipClose_err := ZipClose_err w;
     OsOpen_zip_err := OsOpen_zip_err w;
     Upload_err := Upload_err w;
     UpdateFunctionCode_err := UpdateFunctionCode_err w;
     Wait_answer := wait;
     PublishVersion_answer := PublishVersion_answer w;
     UpdateAlias_err := UpdateAlias_err w;
     DescribeLogGroups_script := DescribeLogGroups_script w;
     DescribeLogGroups_by_prefix := DescribeLogGroups_by_prefix w;
     StartLiveTail_err := StartLiveTail_err w;
     stream_events := stream_events w |}.

(** ** Artifact naming, in the words of the specification *)

(** [<functionName>-<shortCommitHash>[-dirty].zip], the short hash being the
    first 7 characters of the revision identifier. *)
Definition spec_artifact_filename (functionName revision : string) (dirty : bool) : string :=
  functionName ++ "-" ++ substring 0 7 revision
  ++ (if dirty then "-dirty" else EmptyString) ++ ".zip".

(** Frames after which the consumer keeps receiving: a session start, or a
    session update all of whose messages are present. *)
Definition passes (item : StreamItem) : bool :=
  match frame item with
  | SessionStart => true
  | SessionUpdate results =>
      forallb (fun e => match Message e with Some _ => true | None => false end) results
  | _ => false
  end.

(** A paginated listing: the pages before the last, each with its names and
    its continuation token, and the names of the last page.  [allNames] is
    what the pages hold together, [tokensSent] the tokens of the requests that
    fetch them one after the other. *)
Definition allNames (pages : list (list string * string)) (lastPage : list string)
  : list string :=
  (concat (map fst pages) ++ lastPage)%list.

Definition tokensSent (pages : list (list string * string)) : list (option string) :=
  None :: map (fun p => Some (snd p)) pages.

Definition isStartLiveTail (c : Call) : bool :=
  match c with
  | StartLiveTail _ _ => true
  | _ => false
  end.

(** The value a run returned, if it returned. *)
Definition returned {A} (m : M A) : option A :=
  match outcome m with
  | Done a => Some a
  | _ => None
  end.

(** ** Concrete worlds *)

Definition functionsPage (names : list string) (marker : option string)
  : Result lambda.ListFunctionsOutput :=
  Ok {| lambda.Functions := map (fun n => {| lambda.FunctionName := Some n |}) names;
        lambda.NextMarker := marker |}.

Definition logGroupsPage (names : list string) (token : option string)
  : Result cloudwatchlogs.DescribeLogGroupsOutput :=
  Ok {| cloudwatchlogs.LogGroups :=
          map (fun n => {| cloudwatchlogs.LogGroupName := Some n;
                           cloudwatchlogs.Arn := None |}) names;
        cloudwatchlogs.NextToken := token |}.

Definition bucketsList (names : list string) : Result s3.ListBucketsOutput :=
  Ok {| s3.Buckets := map (fun n => {| s3.Name := Some n |}) names |}.

Definition emptyConfig : DeployConfig :=
  {| Env := EmptyString; AppName := EmptyString; LambdaName := EmptyString;
     SourceCodeFilename := EmptyString; BuildsBucket := EmptyString;
     LogGroupName := EmptyString |}.

Definition cleanTree (revision : string) : GitAnswers :=
  {| rev_parse_HEAD := Ok (revision ++ nl); status_porcelain := Ok EmptyString |}.

Definition dirtyTree (revision : string) : GitAnswers :=
  {| rev_parse_HEAD := Ok (revision ++ nl); status_porcelain := Ok (" M main.go" ++ nl) |}.

Definition svcProd : DeployConfig :=
  {| Env := "prod"; AppName := "svc"; LambdaName := "svc-prod";
     SourceCodeFilename := EmptyString; BuildsBucket := "e4f-builds";
     LogGroupName := "/aws/lambda/svc-prod" |}.

(** The functions [orders-prod] and [orders-stag], on two pages. *)
Definition ordersFunctions : list (Result lambda.ListFunctionsOutput) :=
  [functionsPage ["orders-prod"] (Some "page2"); functionsPage ["orders-stag"] None].

Definition ordersStag : DeployConfig :=
  {| Env := "stag"; AppName := "orders"; LambdaName := "orders-stag";
     SourceCodeFilename := "orders-stag-abc1234.zip"; BuildsBucket := "e4f-builds";
     LogGroupName := "/aws/lambda/orders-stag" |}.

(** Two log groups whose names start with the configured name; the prefix
    query answers with the longer name first. *)
Definition canaryGroup : cloudwatchlogs.LogGroup :=
  {| cloudwatchlogs.LogGroupName := Some "/aws/lambda/orders-stag-canary";
     cloudwatchlogs.Arn :=
       Some "arn:aws:logs:us-east-1:123456789012:log-group:/aws/lambda/orders-stag-canary:*" |}.

Definition exactGroup : cloudwatchlogs.LogGroup :=
  {| cloudwatchlogs.LogGroupName := Some "/aws/lambda/orders-stag";
     cloudwatchlogs.Arn :=
       Some "arn:aws:logs:us-east-1:123456789012:log-group:/aws/lambda/orders-stag:*" |}.

Definition logEvent (msg : string) : LiveTailSessionLogEvent :=
  {| Message := Some msg; Timestamp := None |}.

Definition received (f : Frame) : StreamItem :=
  {| frame := f; stream_Err := None |}.

(** The end-to-end scenario of the specification: no configuration file, run
    from a directory named [orders]; the account has the bucket [e4f-builds];
    the waiter reports convergence; version 7 is published.  The parameters
    are what the examples below vary: the [--tail] flag, the state of the
    working tree when the archive is named, the listing of functions, the
    listing of log groups, and the answer to the log-group prefix query. *)
Definition ordersWorld (tailFlag : bool) (git : GitAnswers)
    (functionPages : list (Result lambda.ListFunctionsOutput))
    (logGroupPages : list (Result cloudwatchlogs.DescribeLogGroupsOutput))
    (byPrefix : list cloudwatchlogs.LogGroup) : World :=
  {| tail := tailFlag;
     LoadConfig := emptyConfig;
     Getwd_Base := Ok "orders";
     LoadDefaultConfig_err := None;
     ListFunctions_script := functionPages;
     ListBuckets_answer := bucketsList ["e4f-builds"];
     git_for_ldflags := cleanTree "abc1234def5678900000000000000000000000000";
     GetFunctionConfiguration_answer := Ok {| lambda.Architectures := ["arm64"] |};
     GoBuild_err := None;
     Chmod_err := None;
     git_for_filename := git;
     OsCreate_zip_err := None;
     OsOpen_bootstrap_err := None;
     ZipCreate_err := None;
     IoCopy_err := None;
     ZipClose_err := None;
     OsOpen_zip_err := None;
     Upload_err := None;
     UpdateFunctionCode_err := None;
     Wait_answer := fun _ => Some None;
     PublishVersion_answer := Ok {| lambda.Version := Some "7" |};
     UpdateAlias_err := None;
     DescribeLogGroups_script := logGroupPages;
     DescribeLogGroups_by_prefix :=
       Ok {| cloudwatchlogs.LogGroups := byPrefix; cloudwatchlogs.NextToken := None |};
     StartLiveTail_err := None;
     stream_events :=
       [ received SessionStart;
         received (SessionUpdate [logEvent "line1"]);
         received (SessionUpdate [logEvent "line2"]);
         received NilFrame ] |}.

(** The account lacks the configured log group, and [--tail] is set. *)
Definition noLogGroupWorld : World :=
  ordersWorld true (cleanTree "abc1234") ordersFunctions
    [logGroupsPage ["/aws/lambda/orders-prod"] None] [].

(** The listings hold [a], [b] and [c] only. *)
Definition abcWorld : World :=
  ordersWorld true (cleanTree "abc1234")
    [functionsPage ["a"; "b"; "c"] None] [logGroupsPage ["a"; "b"; "c"] None] [].

(** ** Vocabulary of the further properties *)

(** The calls to CloudWatch Logs. *)
Definition isCloudwatchCall (c : Call) : bool :=
  match c with
  | DescribeLogGroups _ _ | StartLiveTail _ _ | StreamClose => true
  | _ => false
  end.

Definition isUploadCall (c : Call) : bool :=
  match c with
  | Upload _ _ _ => true
  | _ => false
  end.

Definition isStreamClose (c : Call) : bool :=
  match c with
  | StreamClose => true
  | _ => false
  end.

(** A run none of whose calls satisfies [p]. *)
Definition avoids {A} (p : Call -> bool) (m : M A) : Prop :=
  calls p (trace m) = [].

(** The four mutating calls of a deployment, in the order [Deploy] issues them. *)
Definition deployCalls (Config : DeployConfig) (version : option string) : list Call :=
  [ Upload (BuildsBucket Config) (SourceCodeFilename Config) ServerSideEncryptionAes256;
    UpdateFunctionCode (LambdaName Config) (BuildsBucket Config) (SourceCodeFilename Config);
    PublishVersion (LambdaName Config);
    UpdateAlias (LambdaName Config) "canary" version ].

(** The messages of the session updates among [items], in the order received. *)
Definition presentMessages (results : list LiveTailSessionLogEvent) : list string :=
  flat_map (fun e => match Message e with Some msg => [msg] | None => [] end) results.

Fixpoint messagesOf (items : list StreamItem) : list string :=
  match items with
  | [] => []
  | item :: rest =>
      match frame item with
      | SessionUpdate results => (presentMessages results ++ messagesOf rest)%list
      | _ => messagesOf rest
      end
  end.

(** [item] with its pending stream error dropped when it carries a session
    frame. *)
Definition withoutSessionErr (item : StreamItem) : StreamItem :=
  match frame item with
  | SessionStart | SessionUpdate _ => {| frame := frame item; stream_Err := None |}
  | _ => item
  end.

(** Strings made of white space only, and strings without any. *)
Fixpoint allSpace (s : string) : bool :=
  match s with
  | EmptyString => true
  | String c r => isSpace c && allSpace r
  end.

Fixpoint noSpace (s : string) : bool :=
  match s with
  | EmptyString => true
  | String c r => negb (isSpace c) && noSpace r
  end.

(** The log group [/aws/lambda/orders-stag] exists and [--tail] is set. *)
Definition tailWorld : World :=
  ordersWorld true (cleanTree "abc1234") ordersFunctions
    [logGroupsPage ["/aws/lambda/orders-prod"] (Some "next");
     logGroupsPage ["/aws/lambda/orders-stag"] None]
    [exactGroup].


(** The world [w] with other frames on the event stream. *)
Definition with_stream (events : list StreamItem) (w : World) : World :=
  {| tail := tail w;
     LoadConfig := LoadConfig w;
     Getwd_Base := Getwd_Base w;
     LoadDefaultConfig_err := LoadDefaultConfig_err w;
     ListFunctions_script := ListFunctions_script w;
     ListBuckets_answer := ListBuckets_answer w;
     git_for_ldflags := git_for_ldflags w;
     GetFunctionConfiguration_answer := GetFunctionConfiguration_answer w;
     GoBuild_err := GoBuild_err w;
     Chmod_err := Chmod_err w;
     git_for_filename := git_for_filename w;
     OsCreate_zip_err := OsCreate_zip_err w;
     OsOpen_bootstrap_err := OsOpen_bootstrap_err w;
     ZipCreate_err := ZipCreate_err w;
     IoCopy_err := IoCopy_err w;
     ZipClose_err := ZipClose_err w;
     OsOpen_zip_err := OsOpen_zip_err w;
     Upload_err := Upload_err w;
     UpdateFunctionCode_err := UpdateFunctionCode_err w;
     Wait_answer := Wait_answer w;
     PublishVersion_answer := PublishVersion_answer w;
     UpdateAlias_err := UpdateAlias_err w;
     DescribeLogGroups_script := DescribeLogGroups_script w;
     DescribeLogGroups_by_prefix := DescribeLogGroups_by_prefix w;
     StartLiveTail_err := StartLiveTail_err w;
     stream_events := events |}.

(** The calls that inspect the working tree or run the compiler. *)
Definition isBuildCall (c : Call) : bool :=
  match c with
  | GitRevParseHEAD | GitStatusPorcelain | GoBuild _ _ => true
  | _ => false
  end.

(** * Properties *)

(** ** Strings *)

Lemma append_assoc (a b c : string) : (a ++ b) ++ c = a ++ (b ++ c).
Proof. induction a as [ | x a IH]; cbn; [reflexivity | now rewrite IH]. Qed.

Lemma append_nil_r (a : string) : a ++ EmptyString = a.
Proof. induction a as [ | x a IH]; cbn; [reflexivity | now rewrite IH]. Qed.

Lemma length_append (a b : string) :
  String.length (a ++ b) = (String.length a + String.length b)%nat.
Proof. induction a as [ | x a IH]; cbn; [reflexivity | now rewrite IH]. Qed.

Lemma substring_all (b : string) : substring 0 (String.length b) b = b.
Proof. induction b as [ | x b IH]; cbn; [reflexivity | now rewrite IH]. Qed.

Lemma substring_append_take (a b : string) : substring 0 (String.length a) (a ++ b) = a.
Proof.
  induction a as [ | x a IH]; cbn; [now destruct b | now rewrite IH].
Qed.

Lemma substring_append_skip (a b : string) (m : nat) :
  substring (String.length a) m (a ++ b) = substring 0 m b.
Proof. induction a as [ | x a IH]; cbn; [reflexivity | exact IH]. Qed.

Lemma HasSuffix_append (a suffix : string) : HasSuffix (a ++ suffix) suffix = true.
Proof.
  unfold HasSuffix. rewrite length_append.
  replace (String.length a + String.length suffix - String.length suffix)%nat
    with (String.length a) by lia.
  rewrite substring_append_skip, substring_all, String.eqb_refl.
  rewrite andb_true_r. apply Nat.leb_le. lia.
Qed.

Lemma TrimSuffix_append (a suffix : string) : TrimSuffix (a ++ suffix) suffix = a.
Proof.
  unfold TrimSuffix. rewrite HasSuffix_append, length_append.
  replace (String.length a + String.length suffix - String.length suffix)%nat
    with (String.length a) by lia.
  apply substring_append_take.
Qed.

Lemma prefix_append (a b : string) : prefix a (a ++ b) = true.
Proof.
  induction a as [ | x a IH]; cbn; [now destruct b | ].
  destruct (ascii_dec x x) as [_ | Hne]; [exact IH | contradiction].
Qed.

Lemma prefix_append_l (sub s q : string) :
  prefix sub s = true -> prefix sub (s ++ q) = true.
Proof.
  revert sub. induction s as [ | x s IH]; intros [ | y sub]; cbn; try easy.
  - intros _. now destruct q.
  - destruct (ascii_dec y x); [apply IH | discriminate].
Qed.

Lemma Contains_prefix (s sub : string) : prefix sub s = true -> Contains s sub = true.
Proof. intros H. destruct s; cbn [Contains]; rewrite H; reflexivity. Qed.

Lemma Contains_append_r (p s sub : string) :
  Contains s sub = true -> Contains (p ++ s) sub = true.
Proof.
  intros H. induction p as [ | x p IH]; cbn [Contains append]; [exact H | ].
  rewrite IH. apply orb_true_r.
Qed.

Lemma Contains_append_l (s q sub : string) :
  Contains s sub = true -> Contains (s ++ q) sub = true.
Proof.
  induction s as [ | x s IH]; cbn [Contains append].
  - rewrite orb_false_r. intros H. apply Contains_prefix.
    now apply (prefix_append_l sub EmptyString q).
  - intros H. apply orb_prop in H as [H | H].
    + apply (prefix_append_l _ _ q) in H. cbn [append] in H. rewrite H. reflexivity.
    + rewrite (IH H). apply orb_true_r.
Qed.

Lemma Contains_self (s : string) : Contains s s = true.
Proof.
  apply Contains_prefix. rewrite <- (append_nil_r s) at 2. apply prefix_append.
Qed.

(** Every element of a joined list occurs in the joined string. *)
Lemma Join_Contains (elems : list string) (sep name : string) :
  In name elems -> Contains (Join elems sep) name = true.
Proof.
  induction elems as [ | e rest IH]; [contradiction | ].
  intros [-> | Hin]; cbn [Join].
  - destruct rest; [apply Contains_self | ].
    apply Contains_prefix, prefix_append.
  - destruct rest as [ | e' rest']; [contradiction | ].
    do 2 apply Contains_append_r. now apply IH.
Qed.

#[local] Arguments String.append : simpl never.
#[local] Arguments nl : simpl never.

(** ** Runs *)

Lemma bind_Done_inv {A B} (m : M A) (k : A -> M B) (t : list Event) (b : B) :
  bind m k = (t, Done b) ->
  exists t1 a t2, m = (t1, Done a) /\ k a = (t2, Done b) /\ t = (t1 ++ t2)%list.
Proof.
  destruct m as [t1 [a | c | why | ]]; unfold bind; cbn; intros H; try discriminate.
  destruct (k a) as [t2 r] eqn:Hk; cbn in H.
  injection H as <- ->. now exists t1, a, t2.
Qed.

Lemma bind_trace {A B} (m : M A) (k : A -> M B) :
  trace (bind m k) =
  match outcome m with
  | Done a => (trace m ++ trace (k a))%list
  | _ => trace m
  end.
Proof. destruct m as [t [a | c | why | ]]; reflexivity. Qed.

Lemma pair_eta {A} (m : M A) : (fst m, snd m) = m.
Proof. now destruct m. Qed.

Lemma bind_ret {A B} (a : A) (k : A -> M B) : bind (ret a) k = k a.
Proof. unfold bind; cbn. apply pair_eta. Qed.

Lemma bind_emit {B} (e : Event) (k : unit -> M B) :
  bind (emit e) k = (e :: fst (k tt), snd (k tt)).
Proof. reflexivity. Qed.

Lemma bind_call {A B} (c : Call) (answer : A) (k : A -> M B) :
  bind (call c answer) k = (Called c :: fst (k answer), snd (k answer)).
Proof. reflexivity. Qed.

Lemma bind_await {A B} (c : Call) (answer : A) (k : A -> M B) :
  bind (await c (Some answer)) k = (Called c :: fst (k answer), snd (k answer)).
Proof. reflexivity. Qed.

Lemma bind_check_None {B} (what : string) (k : unit -> M B) :
  bind (check what None) k = k tt.
Proof. apply bind_ret. Qed.

Lemma bind_checked_Ok {A B} (what : string) (a : A) (k : A -> M B) :
  bind (checked what (Ok a)) k = k a.
Proof. apply bind_ret. Qed.

Lemma bind_Println {B} (a : string) (k : unit -> M B) :
  bind (Println a) k = (Stdout (a ++ nl) :: fst (k tt), snd (k tt)).
Proof. reflexivity. Qed.

Lemma bind_Println2 {B} (a b : string) (k : unit -> M B) :
  bind (Println2 a b) k = (Stdout (a ++ " " ++ b ++ nl) :: fst (k tt), snd (k tt)).
Proof. reflexivity. Qed.

Lemma bind_Printf {B} (text : string) (k : unit -> M B) :
  bind (Printf text) k = (Stdout text :: fst (k tt), snd (k tt)).
Proof. reflexivity. Qed.

Lemma bind_deref {B} (s : string) (k : string -> M B) :
  bind (deref (Some s)) k = k s.
Proof. apply bind_ret. Qed.

Lemma bind_os_Exit {A B} (code : Z) (k : A -> M B) :
  bind (os_Exit code) k = ([], Exit code).
Proof. reflexivity. Qed.

Lemma check_Some (what : string) (e : error) :
  check what (Some e) = ([Stdout (what ++ " " ++ e ++ nl)], Exit 1).
Proof. reflexivity. Qed.

Lemma checked_Err {A} (what : string) (e : error) :
  @checked A what (Err e) = ([Stdout (what ++ " " ++ e ++ nl)], Exit 1).
Proof. reflexivity. Qed.

Lemma bind_stopped {A B} (t : list Event) (code : Z) (k : A -> M B) :
  bind (t, Exit code) k = (t, Exit code).
Proof. reflexivity. Qed.

Lemma bind_went_on {A B} (t : list Event) (a : A) (k : A -> M B) :
  bind (t, Done a) k = ((t ++ fst (k a))%list, snd (k a)).
Proof. reflexivity. Qed.

Create Rewrite HintDb run.
#[local] Hint Rewrite @bind_ret @bind_emit @bind_call @bind_await @bind_check_None
  @bind_checked_Ok @bind_Println @bind_Println2 @bind_Printf @bind_deref @bind_os_Exit
  @check_Some @checked_Err @bind_stopped @bind_went_on : run.

(** One step of a run whose answers are known. *)
Ltac step := repeat (autorewrite with run; cbv beta; cbn [fst snd]).

Lemma rendered_app (t1 t2 : list Event) :
  rendered (t1 ++ t2) = (rendered t1 ++ rendered t2)%list.
Proof.
  induction t1 as [ | e t1 IH]; cbn; [reflexivity | ].
  destruct e; cbn; now rewrite ?IH.
Qed.

(** ** The log-tail consumer *)

Lemma printSessionResults_present (results : list LiveTailSessionLogEvent) :
  forallb (fun e => match Message e with Some _ => true | None => false end) results = true ->
  outcome (printSessionResults results) = Done tt.
Proof.
  induction results as [ | e rest IH]; cbn; [reflexivity | ].
  destruct (Message e) as [msg | ]; cbn; [ | discriminate].
  intros H. specialize (IH H).
  destruct (printSessionResults rest) as [t r]; cbn in *. now subst r.
Qed.

Lemma handleEventStreamAsync_cons (item : StreamItem) (rest : list StreamItem) :
  handleEventStreamAsync (item :: rest) =
  match frame item with
  | SessionStart =>
      Println "Logs streaming session started" ;; handleEventStreamAsync rest
  | SessionUpdate results =>
      printSessionResults results ;; handleEventStreamAsync rest
  | other =>
      match stream_Err item with
      | Some err => log_Fatalf ("Error occured during streaming: " ++ err)
      | None =>
          match other with
          | UnknownFrame goType => log_Fatalf ("Unknown event type: " ++ goType)
          | _ => ret tt
          end
      end
  end.
Proof. reflexivity. Qed.

(** While every frame passes, the consumer keeps receiving: on the frames
    [pre] alone it ends up waiting, and followed by [rest] it goes on with
    [rest]. *)
Lemma consumer_passes_prefix (pre rest : list StreamItem) :
  forallb passes pre = true ->
  outcome (handleEventStreamAsync pre) = Blocked /\
  handleEventStreamAsync (pre ++ rest) =
    ((trace (handleEventStreamAsync pre) ++ trace (handleEventStreamAsync rest))%list,
     outcome (handleEventStreamAsync rest)).
Proof.
  induction pre as [ | item pre IH]; intros Hpass.
  - split; [reflexivity | ]. cbn [app]. now destruct (handleEventStreamAsync rest).
  - cbn [forallb] in Hpass. apply andb_prop in Hpass as [Hitem Hpre].
    destruct (IH Hpre) as [IHo IHt].
    cbn [app]. rewrite !handleEventStreamAsync_cons, IHt.
    unfold passes in Hitem.
    destruct (frame item) as [ | results | | goType]; try discriminate.
    + destruct (handleEventStreamAsync pre) as [tp rp]; cbn in *. subst rp.
      split; reflexivity.
    + apply printSessionResults_present in Hitem.
      destruct (printSessionResults results) as [t r]; cbn in Hitem; subst r.
      destruct (handleEventStreamAsync pre) as [tp rp]; cbn in *. subst rp.
      unfold bind; cbn. rewrite app_assoc. split; reflexivity.
Qed.

(** Whatever comes after a frame that is fatal leaves the rendered lines
    unchanged. *)
Lemma consumer_renders_nothing_from (pre post : list StreamItem) (f : Frame) (err : error) :
  (f = NilFrame \/ exists goType, f = UnknownFrame goType) ->
  rendered (trace (handleEventStreamAsync
                     (pre ++ {| frame := f; stream_Err := Some err |} :: post))) =
  rendered (trace (handleEventStreamAsync pre)).
Proof.
  intros Hf. induction pre as [ | item pre IH].
  - cbn [app]. rewrite handleEventStreamAsync_cons.
    destruct Hf as [-> | [goType ->]]; reflexivity.
  - cbn [app]. rewrite !handleEventStreamAsync_cons.
    destruct (frame item) as [ | results | | goType].
    + rewrite !bind_trace. cbn. exact IH.
    + rewrite !bind_trace.
      destruct (outcome (printSessionResults results)); try reflexivity.
      now rewrite !rendered_app, IH.
    + reflexivity.
    + reflexivity.
Qed.

(** C3: on the frames [SessionStart, SessionUpdate{line1},
    SessionUpdate{line2}, nil], whatever the timestamps, the consumer prints
    its session-started notice, renders exactly [line1] then [line2] and
    returns normally; and a session-start frame never adds a rendered line,
    whatever follows it. *)
Theorem C3_consumer_renders_lines_in_order :
  (forall ts1 ts2 : option Z,
     let events :=
       [ received SessionStart;
         received (SessionUpdate [ {| Message := Some "line1"; Timestamp := ts1 |} ]);
         received (SessionUpdate [ {| Message := Some "line2"; Timestamp := ts2 |} ]);
         received NilFrame ] in
     handleEventStreamAsync events =
       ([ Stdout ("Logs streaming session started" ++ nl);
          LogPrintln "line1"; LogPrintln "line2" ], Done tt) /\
     rendered (trace (handleEventStreamAsync events)) = ["line1"; "line2"]) /\
  (forall (err : option error) (rest : list StreamItem),
     rendered (trace (handleEventStreamAsync
                        ({| frame := SessionStart; stream_Err := err |} :: rest))) =
     rendered (trace (handleEventStreamAsync rest))).
Proof.
  split.
  - intros ts1 ts2 events. split; reflexivity.
  - intros err rest. rewrite handleEventStreamAsync_cons. cbn [frame].
    now rewrite bind_trace.
Qed.

Lemma printSessionResults_not_Blocked (results : list LiveTailSessionLogEvent) :
  outcome (printSessionResults results) <> Blocked.
Proof.
  induction results as [ | e rest IH]; cbn [printSessionResults]; [discriminate | ].
  destruct (Message e) as [msg | ]; [ | discriminate].
  step. exact IH.
Qed.

(** The consumer never receives past a fatal frame. *)
Lemma consumer_stops_at (pre post : list StreamItem) (goType : string) (err : error) :
  outcome (handleEventStreamAsync
             (pre ++ {| frame := UnknownFrame goType; stream_Err := Some err |} :: post))
  <> Blocked.
Proof.
  induction pre as [ | item pre IH]; cbn [app]; rewrite handleEventStreamAsync_cons.
  - discriminate.
  - destruct (frame item) as [ | results | | other].
    + step. exact IH.
    + pose proof (printSessionResults_not_Blocked results) as Hresults.
      destruct (printSessionResults results) as [t [[] | code | why | ]];
        try discriminate; [ | contradiction].
      step. exact IH.
    + destruct (stream_Err item); discriminate.
    + destruct (stream_Err item); discriminate.
Qed.

(** C4: a frame of an unrecognized type that comes with a pending stream
    error ends the run: nothing after it is rendered, the consumer never goes
    on receiving past it, and when the consumer is still receiving at that
    point the process exits with status 1 after logging the error. *)
Theorem C4_unknown_frame_with_error_is_fatal
    (pre post : list StreamItem) (goType : string) (err : error) :
  let fatal := {| frame := UnknownFrame goType; stream_Err := Some err |} in
  rendered (trace (handleEventStreamAsync (pre ++ fatal :: post))) =
    rendered (trace (handleEventStreamAsync pre)) /\
  outcome (handleEventStreamAsync (pre ++ fatal :: post)) <> Blocked /\
  (forallb passes pre = true ->
   handleEventStreamAsync (pre ++ fatal :: post) =
     ((trace (handleEventStreamAsync pre)
       ++ [LogFatalf ("Error occured during streaming: " ++ err)])%list,
      Exit 1)).
Proof.
  intros fatal. split; [ | split].
  - apply consumer_renders_nothing_from. right. now exists goType.
  - apply consumer_stops_at.
  - intros Hpass.
    destruct (consumer_passes_prefix pre (fatal :: post) Hpass) as [_ ->].
    reflexivity.
Qed.

Lemma C4_unknown_frame_with_error_is_fatal_witness :
  let pre := [ received SessionStart; received (SessionUpdate [logEvent "line1"]) ] in
  let fatal := {| frame := UnknownFrame "*types.UnknownUnionMember";
                  stream_Err := Some "connection reset" |} in
  let post := [ received (SessionUpdate [logEvent "line2"]) ] in
  forallb passes pre = true /\
  handleEventStreamAsync (pre ++ fatal :: post) =
    ([ Stdout ("Logs streaming session started" ++ nl);
       LogPrintln "line1";
       LogFatalf "Error occured during streaming: connection reset" ],
     Exit 1).
Proof.
  intros pre fatal post. split; [reflexivity | ].
  exact (proj2 (proj2 (C4_unknown_frame_with_error_is_fatal
                         pre post "*types.UnknownUnionMember" "connection reset"))
               eq_refl).
Defined.

(** ** Artifact naming *)

Lemma getCurrentGitCommit_ok (git : GitAnswers) (commit status : string) :
  rev_parse_HEAD git = Ok commit ->
  status_porcelain git = Ok status ->
  (7 <= String.length (TrimSpace commit))%nat ->
  getCurrentGitCommit git =
    ([Called GitRevParseHEAD; Called GitStatusPorcelain],
     Done (substring 0 7 (TrimSpace commit)
           ++ (if (0 <? String.length status)%nat then "-dirty" else EmptyString))).
Proof.
  intros Hc Hs Hlen. unfold getCurrentGitCommit, slice_to.
  rewrite Hc, Hs.
  apply Nat.leb_le in Hlen. step. rewrite Hlen. step.
  unfold ret; cbn [fst snd].
  destruct (0 <? String.length status)%nat; [reflexivity | now rewrite append_nil_r].
Qed.

Ltac invert_bind H :=
  let t1 := fresh "t" in
  let a := fresh "a" in
  let t2 := fresh "t" in
  let Hm := fresh "Hm" in
  let Ht := fresh "Ht" in
  apply bind_Done_inv in H; destruct H as (t1 & a & t2 & Hm & H & Ht).

Lemma Build_names_archive (w : World) (Config Config' : DeployConfig) (t : list Event) :
  Build w Config = (t, Done Config') ->
  exists t' commit,
    getCurrentGitCommit (git_for_filename w) = (t', Done commit) /\
    SourceCodeFilename Config' = LambdaName Config ++ "-" ++ commit ++ ".zip" /\
    LambdaName Config' = LambdaName Config /\
    BuildsBucket Config' = BuildsBucket Config /\
    LogGroupName Config' = LogGroupName Config.
Proof.
  unfold Build. intros H.
  do 6 invert_bind H.
  apply bind_Done_inv in H. destruct H as (tg & commit & tz & Hg & H & _).
  exists tg, commit. split; [assumption | ].
  do 10 invert_bind H.
  injection H as _ <-. cbn. repeat split.
Qed.

(** C5: the archive name is the function of the function name, the revision
    identifier and the dirty flag that the specification describes: when git
    answers with a revision of at least 7 characters, [getCurrentGitCommit]
    returns its first 7 characters, followed by [-dirty] exactly when
    [git status --porcelain] printed something, and a [Build] that completes
    has named the archive [<functionName>-<that>.zip]. *)
Theorem C5_artifact_filename
    (git : GitAnswers) (commit status : string)
    (Hcommit : rev_parse_HEAD git = Ok commit)
    (Hstatus : status_porcelain git = Ok status)
    (Hlen : (7 <= String.length (TrimSpace commit))%nat) :
  let dirty := (0 <? String.length status)%nat in
  getCurrentGitCommit git =
    ([Called GitRevParseHEAD; Called GitStatusPorcelain],
     Done (substring 0 7 (TrimSpace commit)
           ++ (if dirty then "-dirty" else EmptyString))) /\
  forall (w : World) (Config Config' : DeployConfig) (t : list Event),
    git_for_filename w = git ->
    Build w Config = (t, Done Config') ->
    SourceCodeFilename Config' =
      spec_artifact_filename (LambdaName Config) (TrimSpace commit) dirty.
Proof.
  intros dirty.
  pose proof (getCurrentGitCommit_ok git commit status Hcommit Hstatus Hlen) as Hgit.
  split; [exact Hgit | ].
  intros w Config Config' t Hw HBuild.
  apply Build_names_archive in HBuild as (t' & name & Hname & Hfile & _).
  rewrite Hw, Hgit in Hname. injection Hname as _ <-.
  rewrite Hfile. unfold spec_artifact_filename. fold dirty.
  now rewrite append_assoc.
Qed.

Lemma C5_artifact_filename_witness :
  returned (Build (ordersWorld false (cleanTree "abc1234") ordersFunctions [] []) svcProd)
    = Some {| Env := "prod"; AppName := "svc"; LambdaName := "svc-prod";
              SourceCodeFilename := "svc-prod-abc1234.zip";
              BuildsBucket := "e4f-builds";
              LogGroupName := "/aws/lambda/svc-prod" |} /\
  SourceCodeFilename
    {| Env := "prod"; AppName := "svc"; LambdaName := "svc-prod";
       SourceCodeFilename := "svc-prod-abc1234.zip";
       BuildsBucket := "e4f-builds";
       LogGroupName := "/aws/lambda/svc-prod" |}
    = spec_artifact_filename "svc-prod" "abc1234" false.
Proof.
  split; [reflexivity | ].
  refine (proj2 (C5_artifact_filename (cleanTree "abc1234") ("abc1234" ++ nl) EmptyString
                   eq_refl eq_refl _)
                (ordersWorld false (cleanTree "abc1234") ordersFunctions [] []) svcProd _ _ eq_refl eq_refl).
  vm_compute. lia.
Defined.

(** The two examples of the specification, run on [Build]. *)
Example artifact_filename_clean :
  option_map SourceCodeFilename
    (returned (Build (ordersWorld false (cleanTree "abc1234") ordersFunctions [] []) svcProd))
  = Some "svc-prod-abc1234.zip".
Proof. reflexivity. Qed.

Example artifact_filename_dirty :
  option_map SourceCodeFilename
    (returned (Build (ordersWorld false (dirtyTree "abc1234") ordersFunctions [] []) svcProd))
  = Some "svc-prod-abc1234-dirty.zip".
Proof. reflexivity. Qed.

(** ** The resolver's listings *)

Lemma contains_In (slice : list string) (item : string) :
  contains slice item = true <-> In item slice.
Proof.
  induction slice as [ | s rest IH]; cbn.
  - split; [discriminate | contradiction].
  - destruct (String.eqb_spec s item) as [-> | Hne].
    + split; auto.
    + rewrite IH. split; [auto | intros [H | H]; [contradiction | assumption]].
Qed.

Lemma appendNames_present (names more : list string) :
  appendNames names (map Some more) = ret (names ++ more)%list.
Proof.
  revert names. induction more as [ | n more IH]; intros names; cbn [map appendNames].
  - now rewrite app_nil_r.
  - step. rewrite IH. now rewrite <- app_assoc.
Qed.

Lemma functionsPage_names (names : list string) :
  map lambda.FunctionName
      (map (fun n => {| lambda.FunctionName := Some n |}) names) = map Some names.
Proof. rewrite map_map. reflexivity. Qed.

Lemma logGroupsPage_names (names : list string) :
  map cloudwatchlogs.LogGroupName
      (map (fun n => {| cloudwatchlogs.LogGroupName := Some n;
                        cloudwatchlogs.Arn := None |}) names) = map Some names.
Proof. rewrite map_map. reflexivity. Qed.

Section Pagination.

(** A listing of N pages: the pages before the last carry a continuation
    token, the last one carries none. *)
Variable pages : list (list string * string).
Variable lastPage : list string.

Lemma GetAvailableFunctions_loop_drains
    (unread : list (Result lambda.ListFunctionsOutput)) :
  forall (ps : list (list string * string)) (names : list string) (marker : option string),
    GetAvailableFunctions_loop
      (map (fun p => functionsPage (fst p) (Some (snd p))) ps
       ++ functionsPage lastPage None :: unread)%list names marker =
    (map (fun m => Called (ListFunctions m)) (marker :: map (fun p => Some (snd p)) ps),
     Done (names ++ concat (map fst ps) ++ lastPage)%list).
Proof.
  induction ps as [ | [page token] ps IH]; intros names marker;
    cbn [map app GetAvailableFunctions_loop concat fst snd]; unfold functionsPage; step;
    cbn [lambda.Functions lambda.NextMarker];
    rewrite functionsPage_names, appendNames_present; step.
  - reflexivity.
  - rewrite IH. cbn [fst snd map]. now rewrite <- !app_assoc.
Qed.

Lemma getAvailableLogGroups_loop_drains
    (unread : list (Result cloudwatchlogs.DescribeLogGroupsOutput)) :
  forall (ps : list (list string * string)) (names : list string) (token : option string),
    getAvailableLogGroups_loop
      (map (fun p => logGroupsPage (fst p) (Some (snd p))) ps
       ++ logGroupsPage lastPage None :: unread)%list names token =
    (map (fun m => Called (DescribeLogGroups None m))
         (token :: map (fun p => Some (snd p)) ps),
     Done (names ++ concat (map fst ps) ++ lastPage)%list).
Proof.
  induction ps as [ | [page tok] ps IH]; intros names token;
    cbn [map app getAvailableLogGroups_loop concat fst snd]; unfold logGroupsPage; step;
    cbn [cloudwatchlogs.LogGroups cloudwatchlogs.NextToken];
    rewrite logGroupsPage_names, appendNames_present; step.
  - reflexivity.
  - rewrite IH. cbn [fst snd map]. now rewrite <- !app_assoc.
Qed.

(** C2: on a listing of N pages the two paginated listings send one request
    per page, each with the token of the page before (none for the first),
    stop at the page without a token, and return the names of all pages in
    order; hence a name that is on any page, also a later one, is found by
    [contains]. *)
Theorem C2_listings_drain_all_pages (w : World) :
  (forall unread,
     ListFunctions_script w =
       (map (fun p => functionsPage (fst p) (Some (snd p))) pages
        ++ functionsPage lastPage None :: unread)%list ->
     GetAvailableFunctions w =
       (map (fun m => Called (ListFunctions m)) (tokensSent pages),
        Done (allNames pages lastPage))) /\
  (forall unread,
     DescribeLogGroups_script w =
       (map (fun p => logGroupsPage (fst p) (Some (snd p))) pages
        ++ logGroupsPage lastPage None :: unread)%list ->
     getAvailableLogGroups w =
       (map (fun m => Called (DescribeLogGroups None m)) (tokensSent pages),
        Done (allNames pages lastPage))) /\
  (forall page name,
     In page (map fst pages ++ [lastPage])%list -> In name page ->
     contains (allNames pages lastPage) name = true).
Proof.
  repeat split.
  - intros unread Hscript. unfold GetAvailableFunctions. rewrite Hscript.
    apply GetAvailableFunctions_loop_drains.
  - intros unread Hscript. unfold getAvailableLogGroups. rewrite Hscript.
    apply getAvailableLogGroups_loop_drains.
  - intros page name Hpage Hname. apply contains_In. unfold allNames.
    apply in_app_or in Hpage as [Hpage | [<- | []]].
    + apply in_or_app. left. apply in_concat. now exists page.
    + apply in_or_app. now right.
Qed.

End Pagination.

Lemma C2_listings_drain_all_pages_witness :
  let w := ordersWorld true (cleanTree "abc1234") ordersFunctions
             [ logGroupsPage ["/aws/lambda/orders-prod"] (Some "page2");
               logGroupsPage ["/aws/lambda/orders-stag"] None ] [] in
  GetAvailableFunctions w =
    ([Called (ListFunctions None); Called (ListFunctions (Some "page2"))],
     Done ["orders-prod"; "orders-stag"]) /\
  getAvailableLogGroups w =
    ([Called (DescribeLogGroups None None); Called (DescribeLogGroups None (Some "page2"))],
     Done ["/aws/lambda/orders-prod"; "/aws/lambda/orders-stag"]) /\
  contains ["orders-prod"; "orders-stag"] "orders-stag" = true.
Proof.
  intros w.
  pose proof (C2_listings_drain_all_pages [(["orders-prod"], "page2")] ["orders-stag"] w)
    as (Hfunctions & _ & Hfound).
  pose proof (C2_listings_drain_all_pages
                [(["/aws/lambda/orders-prod"], "page2")] ["/aws/lambda/orders-stag"] w)
    as (_ & Hgroups & _).
  split; [ | split].
  - exact (Hfunctions [] eq_refl).
  - exact (Hgroups [] eq_refl).
  - apply (Hfound ["orders-stag"] "orders-stag"); cbn; auto.
Defined.


(** ** Deploy: publisher, waiter, promoter *)

(** C6: in every run of [Deploy] the promoter's calls are: none, when an
    earlier stage stopped the run; or the publish call alone, when publishing
    failed, and the run exits with status 1; or the publish call followed by
    one update of the alias [canary] that carries exactly the version the
    publish call returned, the run exiting with status 1 when that update
    fails.  When the publisher and the waiter succeed the publish call is
    issued. *)
Theorem C6_promoter_publishes_then_repoints (w : World) (Config : DeployConfig) :
  let run := Deploy w Config in
  let fn := LambdaName Config in
  ((calls isPromoterCall (trace run) = [] /\ outcome run <> Done tt)
   \/ (exists e, PublishVersion_answer w = Err e /\
                 calls isPromoterCall (trace run) = [PublishVersion fn] /\
                 outcome run = Exit 1)
   \/ (exists publishOutput,
         PublishVersion_answer w = Ok publishOutput /\
         calls isPromoterCall (trace run) =
           [PublishVersion fn; UpdateAlias fn "canary" (lambda.Version publishOutput)] /\
         outcome run =
           match UpdateAlias_err w, lambda.Version publishOutput with
           | Some _, _ => Exit 1
           | None, Some _ => Done tt
           | None, None => Panic "invalid memory address or nil pointer dereference"
           end))
  /\ (OsOpen_zip_err w = None -> Upload_err w = None ->
      UpdateFunctionCode_err w = None -> Wait_answer w maxWaitDur = Some None ->
      exists rest, calls isPromoterCall (trace run) = PublishVersion fn :: rest).
Proof.
  intros run fn. subst run fn. unfold Deploy, uploadToS3.
  destruct (OsOpen_zip_err w) as [e | ]; step;
    [split; [left; split; [reflexivity | discriminate] | discriminate] | ].
  destruct (Upload_err w) as [e | ]; step;
    [split; [left; split; [reflexivity | discriminate] | discriminate] | ].
  destruct (UpdateFunctionCode_err w) as [e | ]; step;
    [split; [left; split; [reflexivity | discriminate] | discriminate] | ].
  destruct (Wait_answer w maxWaitDur) as [[e | ] | ]; step;
    [split; [left; split; [reflexivity | discriminate] | discriminate] | |
     split; [left; split; [reflexivity | discriminate] | discriminate] ].
  destruct (PublishVersion_answer w) as [publishOutput | e]; step.
  - split.
    + right; right. exists publishOutput. split; [reflexivity | ].
      destruct (UpdateAlias_err w) as [e | ]; step; [split; reflexivity | ].
      destruct (lambda.Version publishOutput) as [version | ]; step; split; reflexivity.
    + intros _ _ _ _. eexists. cbn [trace fst calls isPromoterCall]. reflexivity.
  - split.
    + right; left. exists e. repeat split.
    + intros _ _ _ _. eexists. reflexivity.
Qed.

Lemma C6_promoter_publishes_then_repoints_witness :
  let w := ordersWorld false (cleanTree "abc1234") ordersFunctions [] [] in
  let Config := svcProd in
  (OsOpen_zip_err w = None /\ Upload_err w = None /\
   UpdateFunctionCode_err w = None /\ Wait_answer w maxWaitDur = Some None) /\
  exists rest,
    calls isPromoterCall (trace (Deploy w Config)) = PublishVersion "svc-prod" :: rest.
Proof.
  intros w Config. split; [repeat split | ].
  exact (proj2 (C6_promoter_publishes_then_repoints w Config)
               eq_refl eq_refl eq_refl eq_refl).
Defined.

Example promoter_repoints_canary_to_7 :
  calls isPromoterCall
    (trace (Deploy (ordersWorld false (cleanTree "abc1234") ordersFunctions [] []) svcProd))
  = [PublishVersion "svc-prod"; UpdateAlias "svc-prod" "canary" (Some "7")].
Proof. reflexivity. Qed.

(** C7: [Deploy] opens the archive and uploads it to the builds bucket under
    the archive's file name with AES256 server-side encryption; only when the
    upload succeeded does it request the code update, naming the same bucket
    and key; when either step fails the run prints the error and exits with
    status 1, and no further call is made. *)
Theorem C7_publisher_uploads_then_updates (w : World) (Config : DeployConfig) :
  let run := Deploy w Config in
  let key := SourceCodeFilename Config in
  let bucket := BuildsBucket Config in
  let upload := Called (Upload bucket key "AES256") in
  let released := Stdout ("Released " ++ key ++ " to " ++ bucket ++ nl) in
  let update := Called (UpdateFunctionCode (LambdaName Config) bucket key) in
  match OsOpen_zip_err w, Upload_err w, UpdateFunctionCode_err w with
  | Some e, _, _ =>
      run = ([Called (OsOpen key);
              Stdout ("Error opening zip file:" ++ " " ++ e ++ nl)], Exit 1)
  | None, Some e, _ =>
      run = ([Called (OsOpen key); upload;
              Stdout ("Error uploading zip to S3:" ++ " " ++ e ++ nl)], Exit 1)
  | None, None, Some e =>
      run = ([Called (OsOpen key); upload; released; update;
              Stdout ("Error updating Lambda function code:" ++ " " ++ e ++ nl)], Exit 1)
  | None, None, None =>
      (exists rest,
         trace run = (Called (OsOpen key) :: upload :: released :: update :: rest)%list) /\
      calls isPublisherCall (trace run) =
        [Upload bucket key "AES256"; UpdateFunctionCode (LambdaName Config) bucket key]
  end.
Proof.
  cbv zeta. unfold Deploy, uploadToS3, ServerSideEncryptionAes256.
  destruct (OsOpen_zip_err w) as [e | ]; step; [reflexivity | ].
  destruct (Upload_err w) as [e | ]; step; [reflexivity | ].
  destruct (UpdateFunctionCode_err w) as [e | ]; step; [reflexivity | ].
  split; [eexists; reflexivity | ].
  destruct (Wait_answer w maxWaitDur) as [[e | ] | ]; step; try reflexivity.
  destruct (PublishVersion_answer w) as [publishOutput | e]; step; [ | reflexivity].
  destruct (UpdateAlias_err w) as [e | ]; step; [reflexivity | ].
  destruct (lambda.Version publishOutput) as [version | ]; step; reflexivity.
Qed.

Example publisher_uploads_named_archive :
  let w := ordersWorld false (cleanTree "abc1234") ordersFunctions [] [] in
  option_map
    (fun Config => calls isPublisherCall (trace (Deploy w Config)))
    (returned (Build w svcProd))
  = Some [ Upload "e4f-builds" "svc-prod-abc1234.zip" "AES256";
           UpdateFunctionCode "svc-prod" "e4f-builds" "svc-prod-abc1234.zip" ].
Proof. reflexivity. Qed.

(** ** The convergence waiter *)

Lemma Deploy_aborts_on_waiter_error (w : World) (Config : DeployConfig) (e : error) :
  OsOpen_zip_err w = None -> Upload_err w = None -> UpdateFunctionCode_err w = None ->
  Wait_answer w maxWaitDur = Some (Some e) ->
  Deploy w Config =
    ([ Called (OsOpen (SourceCodeFilename Config));
       Called (Upload (BuildsBucket Config) (SourceCodeFilename Config) "AES256");
       Stdout ("Released " ++ SourceCodeFilename Config ++ " to "
               ++ BuildsBucket Config ++ nl);
       Called (UpdateFunctionCode (LambdaName Config) (BuildsBucket Config)
                                  (SourceCodeFilename Config));
       Stdout ("Waiting for the function to be updated..." ++ nl);
       Called (WaitFunctionUpdated (LambdaName Config) maxWaitDur);
       Stdout ("Error waiting for function update:" ++ " " ++ e ++ nl) ],
     Exit 1).
Proof.
  intros Hopen Hupload Hupdate Hwait. unfold Deploy, uploadToS3.
  rewrite Hopen, Hupload, Hupdate, Hwait. step. reflexivity.
Qed.

Lemma Waiter_poll_times_out (polls : list Poll) (ceiling : Z) :
  Forall (fun p => LastUpdateStatus p = InProgress) polls ->
  forall waited : Z,
    (waited < ceiling)%Z ->
    (ceiling <= waited + total_backoff polls)%Z ->
    Waiter_poll polls ceiling waited = Some (Some timeoutError).
Proof.
  unfold total_backoff.
  induction 1 as [ | p rest Hp _ IH]; intros waited Hlt Hcover;
    cbn [fold_right Waiter_poll] in *.
  - lia.
  - rewrite Hp. destruct (ceiling <=? waited + backoff p)%Z eqn:Hnow; [reflexivity | ].
    apply Z.leb_gt in Hnow. apply IH; lia.
Qed.

Lemma total_backoff_of_stream (s : nat -> Poll) :
  (forall i, (1 <= backoff (s i))%Z) ->
  forall n start, (Z.of_nat n <= total_backoff (map s (seq start n)))%Z.
Proof.
  intros Hpos. unfold total_backoff.
  induction n as [ | n IH]; intros start; cbn [seq map fold_right].
  - lia.
  - specialize (IH (S start)). specialize (Hpos start). lia.
Qed.

(** C9: the wait is bounded by five minutes.  [Deploy] asks the waiter for at
    most 300 seconds; when the platform reports the update in progress at
    every poll until the polls' backoffs add up to the bound, the waiter
    answers with its timeout error, [Deploy] prints it and exits with status
    1, and the wait is the last call of the run: nothing is published,
    repointed or rolled back.  A platform that never reports convergence
    cannot keep the waiter polling: with backoffs of at least one nanosecond
    the first 300 * 10^9 polls already exhaust the bound. *)
Theorem C9_wait_is_bounded (w : World) (Config : DeployConfig) (polls : list Poll) :
  Forall (fun p => LastUpdateStatus p = InProgress) polls ->
  (maxWaitDur <= total_backoff polls)%Z ->
  OsOpen_zip_err w = None -> Upload_err w = None -> UpdateFunctionCode_err w = None ->
  maxWaitDur = (300 * 1000000000)%Z /\
  Waiter_Wait polls maxWaitDur = Some (Some timeoutError) /\
  Deploy (with_waiter (Waiter_Wait polls) w) Config =
    ([ Called (OsOpen (SourceCodeFilename Config));
       Called (Upload (BuildsBucket Config) (SourceCodeFilename Config) "AES256");
       Stdout ("Released " ++ SourceCodeFilename Config ++ " to "
               ++ BuildsBucket Config ++ nl);
       Called (UpdateFunctionCode (LambdaName Config) (BuildsBucket Config)
                                  (SourceCodeFilename Config));
       Stdout ("Waiting for the function to be updated..." ++ nl);
       Called (WaitFunctionUpdated (LambdaName Config) maxWaitDur);
       Stdout ("Error waiting for function update:" ++ " " ++ timeoutError ++ nl) ],
     Exit 1) /\
  (forall s : nat -> Poll,
     (forall i, LastUpdateStatus (s i) = InProgress) ->
     (forall i, (1 <= backoff (s i))%Z) ->
     Waiter_Wait (map s (seq 0 (Z.to_nat maxWaitDur))) maxWaitDur
       = Some (Some timeoutError)).
Proof.
  intros Hnever Hcover Hopen Hupload Hupdate.
  assert (Hbound : maxWaitDur = (300 * 1000000000)%Z) by reflexivity.
  assert (Htimeout : Waiter_Wait polls maxWaitDur = Some (Some timeoutError)).
  { unfold Waiter_Wait. apply Waiter_poll_times_out; [assumption | lia | lia]. }
  repeat split; try assumption.
  - now apply Deploy_aborts_on_waiter_error.
  - intros s Hs Hpos. unfold Waiter_Wait. apply Waiter_poll_times_out.
    + apply Forall_forall. intros p Hp. apply in_map_iff in Hp as (i & <- & _). apply Hs.
    + lia.
    + pose proof (total_backoff_of_stream s Hpos (Z.to_nat maxWaitDur) 0). lia.
Qed.

Lemma C9_wait_is_bounded_witness :
  let w := ordersWorld false (cleanTree "abc1234") ordersFunctions [] [] in
  let polls := repeat {| LastUpdateStatus := InProgress; backoff := 5000000000 |} 60 in
  (maxWaitDur <= total_backoff polls)%Z /\
  Waiter_Wait polls maxWaitDur = Some (Some timeoutError) /\
  outcome (Deploy (with_waiter (Waiter_Wait polls) w) ordersStag) = Exit 1 /\
  calls isPromoterCall (trace (Deploy (with_waiter (Waiter_Wait polls) w) ordersStag)) = [].
Proof.
  intros w polls.
  assert (Hcover : (maxWaitDur <= total_backoff polls)%Z) by (vm_compute; discriminate).
  assert (Hnever : Forall (fun p => LastUpdateStatus p = InProgress) polls).
  { apply Forall_forall. intros p Hp. apply repeat_spec in Hp. now subst p. }
  destruct (C9_wait_is_bounded w ordersStag polls Hnever Hcover eq_refl eq_refl eq_refl)
    as (_ & Htimeout & Hrun & _).
  split; [exact Hcover | ]. split; [exact Htimeout | ].
  rewrite Hrun. split; reflexivity.
Defined.

(** ** The log group of the live-tail session *)

(** C10: [getARNofLogGroup] sends one request, a prefix query without a
    token; it ends the run with status 1 when the query fails or matches no
    group, and otherwise returns the ARN of the first group of the answer
    with one trailing [:*] removed, whatever that group's name is.  So when
    the account has [/aws/lambda/orders-stag-canary] beside the configured
    [/aws/lambda/orders-stag] and the answer lists it first, the live-tail
    session is opened on the canary group. *)
Theorem C10_log_group_is_first_prefix_match (w : World) (Config : DeployConfig) :
  let query := Called (DescribeLogGroups (Some (LogGroupName Config)) None) in
  match DescribeLogGroups_by_prefix w with
  | Err e =>
      getARNofLogGroup w Config =
        ([query; Stdout ("Error describing log groups:" ++ " " ++ e ++ nl)], Exit 1)
  | Ok output =>
      match cloudwatchlogs.LogGroups output with
      | [] =>
          getARNofLogGroup w Config =
            ([query;
              Stdout ("No log groups found for the given prefix "
                      ++ LogGroupName Config ++ nl)], Exit 1)
      | first :: _ =>
          match cloudwatchlogs.Arn first with
          | Some arn => getARNofLogGroup w Config = ([query], Done (TrimSuffix arn ":*"))
          | None =>
              getARNofLogGroup w Config =
                ([query], Panic "invalid memory address or nil pointer dereference")
          end
      end
  end /\
  (forall arn : string, TrimSuffix (arn ++ ":*") ":*" = arn) /\
  (let shared :=
     ordersWorld true (cleanTree "abc1234") ordersFunctions
       [ logGroupsPage ["/aws/lambda/orders-stag"; "/aws/lambda/orders-stag-canary"] None ]
       [ canaryGroup; exactGroup ] in
   prefix (LogGroupName ordersStag) "/aws/lambda/orders-stag-canary" = true /\
   cloudwatchlogs.LogGroupName exactGroup = Some (LogGroupName ordersStag) /\
   calls isStartLiveTail (trace (TailLogs shared ordersStag)) =
     [ StartLiveTail
         ["arn:aws:logs:us-east-1:123456789012:log-group:/aws/lambda/orders-stag-canary"]
         LogEventFilterPattern ]).
Proof.
  cbv zeta. split; [ | split; [ | repeat split] ].
  - unfold getARNofLogGroup.
    destruct (DescribeLogGroups_by_prefix w) as [output | e]; step; [ | reflexivity].
    destruct (cloudwatchlogs.LogGroups output) as [ | first rest]; step; [reflexivity | ].
    destruct (cloudwatchlogs.Arn first) as [arn | ]; step; reflexivity.
  - intros arn. apply TrimSuffix_append.
Qed.

(** ** The resolver's error messages *)

Lemma InitAWSClient_ok (w : World) :
  LoadDefaultConfig_err w = None ->
  InitAWSClient w = ([Called (LoadDefaultConfig "us-east-1")], Done tt).
Proof. intros H. unfold InitAWSClient. now rewrite H. Qed.

Lemma available_message_names_all (what : string) (names : list string) (name : string) :
  In name names -> Contains (what ++ Join names ", " ++ nl) name = true.
Proof.
  intros Hin. apply Contains_append_r, Contains_append_l. now apply Join_Contains.
Qed.

(** C8: when the configured function, bucket or log group is not among the
    names listed, the run prints that it does not exist, then one line that
    enumerates the listing, and exits with status 1; every name of the
    listing occurs in that line. *)
Theorem C8_absent_resource_lists_available
    (w : World) (Config : DeployConfig) (t : list Event) (names : list string) :
  (LoadConfigOrDefaults w = (t, Done Config) ->
   LoadDefaultConfig_err w = None ->
   forall tf,
     GetAvailableFunctions w = (tf, Done names) ->
     contains names (LambdaName Config) = false ->
     let msg := "Available functions are: " ++ Join names ", " ++ nl in
     (exists before,
        runDeploy w =
          ((before
            ++ [ Stdout ("Lambda function '" ++ LambdaName Config ++ "' does not exist" ++ nl);
                 Stdout msg ])%list, Exit 1)) /\
     forall name, In name names -> Contains msg name = true) /\
  (LoadConfigOrDefaults w = (t, Done Config) ->
   LoadDefaultConfig_err w = None ->
   forall tf functions tb,
     GetAvailableFunctions w = (tf, Done functions) ->
     contains functions (LambdaName Config) = true ->
     GetAvailableBuckets w = (tb, Done names) ->
     contains names (BuildsBucket Config) = false ->
     let msg := "Available buckets are: " ++ Join names ", " ++ nl in
     (exists before,
        runDeploy w =
          ((before
            ++ [ Stdout ("S3 bucket " ++ BuildsBucket Config ++ " does not exist" ++ nl);
                 Stdout msg ])%list, Exit 1)) /\
     forall name, In name names -> Contains msg name = true) /\
  (getAvailableLogGroups w = (t, Done names) ->
   contains names (LogGroupName Config) = false ->
   let msg := "Available log groups are: " ++ Join names ", " ++ nl in
   TailLogs w Config =
     ((t ++ [ Stdout ("Log group " ++ LogGroupName Config ++ " does not exist" ++ nl);
              Stdout msg ])%list, Exit 1) /\
   forall name, In name names -> Contains msg name = true).
Proof.
  split; [ | split].
  - intros Hconfig Hinit tf Hlist Habsent msg.
    split; [ | intros name; apply available_message_names_all].
    unfold runDeploy. rewrite Hconfig, (InitAWSClient_ok w Hinit). step.
    rewrite Hlist. step. rewrite Habsent.
    cbn [negb]. unfold os_Exit. step.
    exists (t ++ Called (LoadDefaultConfig "us-east-1") :: tf)%list.
    cbn [app]. now rewrite <- !app_assoc.
  - intros Hconfig Hinit tf functions tb Hlist Hpresent Hbuckets Habsent msg.
    split; [ | intros name; apply available_message_names_all].
    unfold runDeploy. rewrite Hconfig, (InitAWSClient_ok w Hinit). step.
    rewrite Hlist. step. rewrite Hpresent. cbn [negb]. step.
    rewrite Hbuckets. step. rewrite Habsent.
    cbn [negb]. unfold os_Exit. step.
    exists (t ++ Called (LoadDefaultConfig "us-east-1") :: tf ++ tb)%list.
    rewrite <- !app_assoc. cbn [app]. now rewrite <- !app_assoc.
  - intros Hlist Habsent msg.
    split; [ | intros name; apply available_message_names_all].
    unfold TailLogs. rewrite Hlist. step. rewrite Habsent.
    cbn [negb]. unfold os_Exit. step. reflexivity.
Qed.

Lemma C8_absent_resource_lists_available_witness :
  let msg := "Available functions are: a, b, c" ++ nl in
  (exists before,
     runDeploy abcWorld =
       ((before ++ [ Stdout ("Lambda function 'orders-stag' does not exist" ++ nl);
                     Stdout msg ])%list, Exit 1)) /\
  Contains msg "a" = true /\ Contains msg "b" = true /\ Contains msg "c" = true.
Proof.
  intros msg.
  destruct (C8_absent_resource_lists_available abcWorld
              {| Env := "stag"; AppName := "orders"; LambdaName := "orders-stag";
                 SourceCodeFilename := EmptyString; BuildsBucket := "e4f-builds";
                 LogGroupName := "/aws/lambda/orders-stag" |}
              [Called Getwd] ["a"; "b"; "c"]) as (Hfunction & _ & _).
  destruct (Hfunction eq_refl eq_refl [Called (ListFunctions None)] eq_refl eq_refl)
    as (Hrun & Hnames).
  split; [exact Hrun | ].
  repeat split; apply Hnames; cbn; auto.
Defined.

(** ** Resolution and mutation *)

Lemma quiet_prefix_split (l r pre post : list Event) (c : Call) :
  Forall (fun e => mutatingEvent e = false) l ->
  mutating c = true ->
  (l ++ r)%list = (pre ++ Called c :: post)%list ->
  exists rest, pre = (l ++ rest)%list /\ r = (rest ++ Called c :: post)%list.
Proof.
  intros Hquiet Hmut. revert pre.
  induction Hquiet as [ | e l He _ IH]; intros pre Heq; cbn [app] in Heq.
  - now exists pre.
  - destruct pre as [ | e' pre]; cbn [app] in Heq; injection Heq as -> Heq.
    + cbn in He. congruence.
    + destruct (IH pre Heq) as (rest & -> & ->). now exists rest.
Qed.

(** A mutating call in a run that starts with a quiet part [m] comes after
    [m] has returned. *)
Lemma mutation_after_quiet {A B} (m : M A) (k : A -> M B)
    (pre post : list Event) (c : Call) :
  quiet m ->
  mutating c = true ->
  trace (bind m k) = (pre ++ Called c :: post)%list ->
  exists t a rest,
    m = (t, Done a) /\ pre = (t ++ rest)%list /\
    trace (k a) = (rest ++ Called c :: post)%list.
Proof.
  unfold quiet. destruct m as [t [a | code | why | ]]; cbn [trace fst];
    intros Hquiet Hmut Heq.
  - apply (quiet_prefix_split _ _ _ _ _ Hquiet Hmut) in Heq as (rest & -> & Hk).
    now exists t, a, rest.
  - rewrite <- (app_nil_r t) in Heq.
    apply (quiet_prefix_split _ _ _ _ _ Hquiet Hmut) in Heq as (rest & _ & Hk).
    now destruct rest.
  - rewrite <- (app_nil_r t) in Heq.
    apply (quiet_prefix_split _ _ _ _ _ Hquiet Hmut) in Heq as (rest & _ & Hk).
    now destruct rest.
  - rewrite <- (app_nil_r t) in Heq.
    apply (quiet_prefix_split _ _ _ _ _ Hquiet Hmut) in Heq as (rest & _ & Hk).
    now destruct rest.
Qed.

Lemma quiet_bind {A B} (m : M A) (k : A -> M B) :
  quiet m -> (forall a, quiet (k a)) -> quiet (bind m k).
Proof.
  unfold quiet. intros Hm Hk. rewrite bind_trace.
  destruct (outcome m); [ | assumption ..].
  apply Forall_app. split; [assumption | apply Hk].
Qed.

Lemma quiet_ret {A} (a : A) : quiet (ret a).
Proof. constructor. Qed.

Lemma quiet_call {A} (c : Call) (answer : A) : mutating c = false -> quiet (call c answer).
Proof. intros H. repeat constructor. exact H. Qed.

Lemma quiet_check (what : string) (err : option error) : quiet (check what err).
Proof. destruct err; repeat constructor. Qed.

Lemma quiet_checked {A} (what : string) (r : Result A) : quiet (checked what r).
Proof. destruct r; repeat constructor. Qed.

Lemma quiet_deref (p : option string) : quiet (deref p).
Proof. destruct p; constructor. Qed.

Lemma quiet_appendNames (ps : list (option string)) :
  forall names, quiet (appendNames names ps).
Proof.
  induction ps as [ | p ps IH]; intros names; cbn [appendNames].
  - apply quiet_ret.
  - apply quiet_bind; [apply quiet_deref | intros n; apply IH].
Qed.

Lemma quiet_LoadConfigOrDefaults (w : World) : quiet (LoadConfigOrDefaults w).
Proof.
  unfold LoadConfigOrDefaults, getAppName.
  apply quiet_bind; [ | intros appName; apply quiet_ret].
  destruct (isEmpty (AppName (LoadConfig w))); [ | apply quiet_ret].
  apply quiet_bind; [now apply quiet_call | intros dir; apply quiet_checked].
Qed.

Lemma quiet_InitAWSClient (w : World) : quiet (InitAWSClient w).
Proof.
  apply quiet_bind; [now apply quiet_call | intros err; apply quiet_check].
Qed.

Lemma quiet_GetAvailableFunctions (w : World) : quiet (GetAvailableFunctions w).
Proof.
  unfold GetAvailableFunctions. generalize (@nil string), (@None string).
  induction (ListFunctions_script w) as [ | answer script IH]; intros names marker;
    cbn [GetAvailableFunctions_loop];
    (apply quiet_bind; [repeat constructor | intros _]).
  - constructor.
  - apply quiet_bind; [apply quiet_checked | intros output].
    apply quiet_bind; [apply quiet_appendNames | intros names'].
    destruct (lambda.NextMarker output); [apply IH | apply quiet_ret].
Qed.

Lemma quiet_GetAvailableBuckets (w : World) : quiet (GetAvailableBuckets w).
Proof.
  apply quiet_bind; [now apply quiet_call | intros answer].
  apply quiet_bind; [apply quiet_checked | intros output; apply quiet_appendNames].
Qed.

(** C1: in every run, a mutating call (upload, update-function-code,
    publish-version, update-alias) is issued only after the listing of
    functions and the listing of buckets have completed and the configured
    function and bucket have been found in them. *)
Theorem C1_function_and_bucket_resolved_before_mutation (w : World) :
  resolved_before_mutation false w.
Proof.
  intros pre c post Htrace Hmut. unfold runDeploy in Htrace.
  apply mutation_after_quiet in Htrace
    as (tc & Config & r1 & Hconfig & -> & Htrace);
    [ | apply quiet_LoadConfigOrDefaults | assumption].
  apply mutation_after_quiet in Htrace
    as (ti & [] & r2 & Hinit & -> & Htrace);
    [ | apply quiet_InitAWSClient | assumption].
  apply mutation_after_quiet in Htrace
    as (tf & functions & r3 & Hfunctions & -> & Htrace);
    [ | apply quiet_GetAvailableFunctions | assumption].
  destruct (contains functions (LambdaName Config)) eqn:Hfunction; cbn [negb] in Htrace.
  2:{ apply mutation_after_quiet in Htrace as (? & ? & ? & Hstop & _);
        [discriminate Hstop | repeat constructor | assumption]. }
  rewrite bind_ret in Htrace.
  apply mutation_after_quiet in Htrace
    as (tb & buckets & r4 & Hbuckets & -> & Htrace);
    [ | apply quiet_GetAvailableBuckets | assumption].
  destruct (contains buckets (BuildsBucket Config)) eqn:Hbucket; cbn [negb] in Htrace.
  2:{ apply mutation_after_quiet in Htrace as (? & ? & ? & Hstop & _);
        [discriminate Hstop | repeat constructor | assumption]. }
  exists tc, Config. split; [assumption | ]. split; [ | split].
  - exists tf, functions, (tc ++ ti)%list, (tb ++ r4)%list.
    repeat split; try assumption. now rewrite <- !app_assoc.
  - exists tb, buckets, (tc ++ ti ++ tf)%list, r4.
    repeat split; try assumption. now rewrite <- !app_assoc.
  - discriminate.
Qed.

Lemma C1_function_and_bucket_resolved_before_mutation_witness :
  let run := trace (runDeploy noLogGroupWorld) in
  nth_error run 19 = Some (Called (Upload "e4f-builds" "orders-stag-abc1234.zip" "AES256")) /\
  exists t Config,
    LoadConfigOrDefaults noLogGroupWorld = (t, Done Config) /\
    confirmed (GetAvailableFunctions noLogGroupWorld) (LambdaName Config) (firstn 19 run) /\
    confirmed (GetAvailableBuckets noLogGroupWorld) (BuildsBucket Config) (firstn 19 run).
Proof.
  intros run. split; [reflexivity | ].
  destruct (C1_function_and_bucket_resolved_before_mutation noLogGroupWorld
              (firstn 19 run)
              (Upload "e4f-builds" "orders-stag-abc1234.zip" "AES256")
              (skipn 20 run) eq_refl eq_refl)
    as (t & Config & Hconfig & Hfunction & Hbucket & _).
  exists t, Config. auto.
Defined.

(** The claim with the log group included fails: with [--tail] set and the
    configured log group missing from the account, the run uploads, updates
    the code, publishes and repoints the alias, and only then lists the log
    groups, reports the missing one and exits with status 1. *)
Lemma C1_log_group_is_resolved_after_mutation :
  calls mutating (trace (runDeploy noLogGroupWorld)) =
    [ Upload "e4f-builds" "orders-stag-abc1234.zip" "AES256";
      UpdateFunctionCode "orders-stag" "e4f-builds" "orders-stag-abc1234.zip";
      PublishVersion "orders-stag";
      UpdateAlias "orders-stag" "canary" (Some "7") ] /\
  outcome (runDeploy noLogGroupWorld) = Exit 1 /\
  ~ resolved_before_mutation true noLogGroupWorld.
Proof.
  split; [reflexivity | ]. split; [reflexivity | ].
  intros Hclaim.
  destruct (Hclaim (firstn 19 (trace (runDeploy noLogGroupWorld)))
              (Upload "e4f-builds" "orders-stag-abc1234.zip" "AES256")
              (skipn 20 (trace (runDeploy noLogGroupWorld))) eq_refl eq_refl)
    as (t & Config & Hconfig & _ & _ & Hgroup).
  injection Hconfig as _ <-.
  destruct (Hgroup eq_refl) as (tg & names & before & rest & Hlisting & Hfound & _).
  injection Hlisting as _ <-.
  discriminate Hfound.
Qed.

(** ** The end-to-end scenario of the specification *)

Example orders_stag_is_deployed :
  let run := runDeploy (ordersWorld false (cleanTree "abc1234") ordersFunctions [] []) in
  calls mutating (trace run) =
    [ Upload "e4f-builds" "orders-stag-abc1234.zip" "AES256";
      UpdateFunctionCode "orders-stag" "e4f-builds" "orders-stag-abc1234.zip";
      PublishVersion "orders-stag";
      UpdateAlias "orders-stag" "canary" (Some "7") ] /\
  outcome run = Done tt.
Proof. split; reflexivity. Qed.

(** * Further properties of the code *)

(** ** Runs that avoid a kind of call *)

Lemma calls_app (p : Call -> bool) (t1 t2 : list Event) :
  calls p (t1 ++ t2) = (calls p t1 ++ calls p t2)%list.
Proof.
  induction t1 as [ | e t1 IH]; cbn [app calls]; [reflexivity | ].
  destruct e as [c | | | ]; try exact IH.
  destruct (p c); cbn [app]; now rewrite IH.
Qed.

Lemma calls_In (p : Call -> bool) (t pre post : list Event) (c : Call) :
  t = (pre ++ Called c :: post)%list -> p c = true -> In c (calls p t).
Proof.
  intros -> Hp. rewrite calls_app. apply in_or_app. right.
  cbn [calls]. rewrite Hp. now left.
Qed.

Lemma avoids_bind {A B} (p : Call -> bool) (m : M A) (k : A -> M B) :
  avoids p m -> (forall a, avoids p (k a)) -> avoids p (bind m k).
Proof.
  unfold avoids. intros Hm Hk. rewrite bind_trace.
  destruct (outcome m); [ | assumption ..].
  now rewrite calls_app, Hm, Hk.
Qed.

Lemma avoids_check (p : Call -> bool) (what : string) (err : option error) :
  avoids p (check what err).
Proof. now destruct err. Qed.

Lemma avoids_checked {A} (p : Call -> bool) (what : string) (r : Result A) :
  avoids p (checked what r).
Proof. now destruct r. Qed.

Lemma avoids_deref (p : Call -> bool) (ptr : option string) : avoids p (deref ptr).
Proof. now destruct ptr. Qed.

Lemma avoids_appendNames (p : Call -> bool) (ps : list (option string)) :
  forall names, avoids p (appendNames names ps).
Proof.
  induction ps as [ | ptr ps IH]; intros names; cbn [appendNames]; [reflexivity | ].
  apply avoids_bind; [apply avoids_deref | intros n; apply IH].
Qed.

Lemma avoids_at (p : Call -> bool) {A} (m : M A) (t : list Event) (r : Res A) :
  avoids p m -> m = (t, r) -> calls p t = [].
Proof. now intros H ->. Qed.

Lemma avoids_quiet {A} (m : M A) : avoids mutating m -> quiet m.
Proof.
  unfold avoids, quiet. induction (trace m) as [ | e t IH]; intros H; constructor.
  - destruct e as [c | | | ]; try reflexivity.
    cbn in *. now destruct (mutating c).
  - apply IH. destruct e as [c | | | ]; try exact H.
    cbn in H. now destruct (mutating c).
Qed.

(** Decomposes a run built from [bind], calls, checks and case distinctions. *)
Ltac avoid :=
  repeat first
    [ apply avoids_bind; [ | intros ? ]
    | apply avoids_check
    | apply avoids_checked
    | apply avoids_deref
    | apply avoids_appendNames
    | reflexivity
    | match goal with
      | |- avoids _ (match ?x with _ => _ end) => destruct x
      | |- avoids _ (if ?b then _ else _) => destruct b
      end ].

Lemma avoids_GetAvailableFunctions (p : Call -> bool) (w : World) :
  (forall marker, p (ListFunctions marker) = false) ->
  avoids p (GetAvailableFunctions w).
Proof.
  intros Hp. unfold GetAvailableFunctions. generalize (@nil string), (@None string).
  induction (ListFunctions_script w) as [ | answer script IH]; intros names marker;
    cbn [GetAvailableFunctions_loop];
    (apply avoids_bind; [unfold avoids; cbn; now rewrite Hp | intros _]).
  - reflexivity.
  - apply avoids_bind; [apply avoids_checked | intros output].
    apply avoids_bind; [apply avoids_appendNames | intros names'].
    destruct (lambda.NextMarker output); [apply IH | reflexivity].
Qed.

Lemma avoids_getAvailableLogGroups (p : Call -> bool) (w : World) :
  (forall token, p (DescribeLogGroups None token) = false) ->
  avoids p (getAvailableLogGroups w).
Proof.
  intros Hp. unfold getAvailableLogGroups. generalize (@nil string), (@None string).
  induction (DescribeLogGroups_script w) as [ | answer script IH]; intros names token;
    cbn [getAvailableLogGroups_loop];
    (apply avoids_bind; [unfold avoids; cbn; now rewrite Hp | intros _]).
  - reflexivity.
  - apply avoids_bind; [apply avoids_checked | intros output].
    apply avoids_bind; [apply avoids_appendNames | intros names'].
    destruct (cloudwatchlogs.NextToken output); [apply IH | reflexivity].
Qed.

Lemma avoids_printSessionResults (p : Call -> bool) (results : list LiveTailSessionLogEvent) :
  avoids p (printSessionResults results).
Proof.
  induction results as [ | e rest IH]; cbn [printSessionResults]; [reflexivity | ].
  apply avoids_bind; [apply avoids_deref | intros msg].
  apply avoids_bind; [reflexivity | intros _; exact IH].
Qed.

(** The consumer of the event stream makes no call at all. *)
Lemma avoids_handleEventStreamAsync (p : Call -> bool) (events : list StreamItem) :
  avoids p (handleEventStreamAsync events).
Proof.
  induction events as [ | item rest IH]; [reflexivity | ].
  rewrite handleEventStreamAsync_cons.
  destruct (frame item) as [ | results | | goType].
  - apply avoids_bind; [reflexivity | intros _; exact IH].
  - apply avoids_bind; [apply avoids_printSessionResults | intros _; exact IH].
  - now destruct (stream_Err item).
  - now destruct (stream_Err item).
Qed.

Lemma avoids_go (p : Call -> bool) (consumer : M unit) :
  avoids p consumer -> avoids p (go consumer).
Proof. unfold avoids, go. now destruct consumer as [t [[] | code | why | ]]. Qed.

Lemma avoids_Build (p : Call -> bool) (w : World) (Config : DeployConfig) :
  p GitRevParseHEAD = false -> p GitStatusPorcelain = false ->
  (forall fn, p (GetFunctionConfiguration fn) = false) ->
  (forall flags env, p (GoBuild flags env) = false) ->
  (forall name mode, p (Chmod name mode) = false) ->
  (forall name, p (OsCreate name) = false) ->
  (forall name, p (OsOpen name) = false) ->
  (forall name, p (ZipCreate name) = false) ->
  p IoCopy = false -> p ZipClose = false ->
  avoids p (Build w Config).
Proof.
  intros Hrev Hstatus Hconf Hgo Hchmod Hcreate Hopen Hzip Hcopy Hclose.
  assert (Hcall : forall A (c : Call) (answer : A), p c = false -> avoids p (call c answer)).
  { intros A c answer Hc. unfold avoids. cbn. now rewrite Hc. }
  unfold Build, getCurrentGitCommit, determineFunctionArch. cbv zeta.
  repeat first
    [ apply avoids_bind; [ | intros ? ]
    | apply avoids_check
    | apply avoids_checked
    | apply Hcall; auto
    | reflexivity
    | match goal with
      | |- avoids _ (match ?x with _ => _ end) => destruct x
      end ].
Qed.

Lemma avoids_TailLogs (p : Call -> bool) (w : World) (Config : DeployConfig) :
  (forall prefix token, p (DescribeLogGroups prefix token) = false) ->
  (forall ids pattern, p (StartLiveTail ids pattern) = false) ->
  p StreamClose = false ->
  avoids p (TailLogs w Config).
Proof.
  intros Hdescribe Hstart Hclose.
  assert (Hcall : forall A (c : Call) (answer : A), p c = false -> avoids p (call c answer)).
  { intros A c answer Hc. unfold avoids. cbn. now rewrite Hc. }
  unfold TailLogs, getARNofLogGroup.
  apply avoids_bind; [now apply avoids_getAvailableLogGroups | intros names].
  apply avoids_bind; [avoid | intros _].
  apply avoids_bind.
  { apply avoids_bind; [now apply Hcall | intros answer].
    apply avoids_bind; [apply avoids_checked | intros output].
    destruct (cloudwatchlogs.LogGroups output); avoid. }
  intros arn.
  apply avoids_bind; [now apply Hcall | intros err].
  apply avoids_bind; [now destruct err | intros _].
  apply avoids_bind; [apply avoids_go, avoids_handleEventStreamAsync | intros _].
  now apply Hcall.
Qed.

(** X1: only [Deploy] changes remote state.  The resolver's listings, the
    build and the log tail never issue an upload, a code update, a publish
    or an alias update, whatever the world answers. *)
Theorem only_Deploy_mutates (w : World) (Config : DeployConfig) :
  avoids mutating (LoadConfigOrDefaults w) /\
  avoids mutating (InitAWSClient w) /\
  avoids mutating (GetAvailableFunctions w) /\
  avoids mutating (GetAvailableBuckets w) /\
  avoids mutating (Build w Config) /\
  avoids mutating (TailLogs w Config).
Proof.
  repeat split.
  - unfold LoadConfigOrDefaults, getAppName. cbv zeta. avoid.
  - unfold InitAWSClient. avoid.
  - now apply avoids_GetAvailableFunctions.
  - unfold GetAvailableBuckets. avoid.
  - now apply avoids_Build.
  - now apply avoids_TailLogs.
Qed.

Lemma only_Deploy_mutates_witness :
  calls mutating (trace (Build tailWorld ordersStag)) = [] /\
  calls mutating (trace (TailLogs tailWorld ordersStag)) = [] /\
  outcome (TailLogs tailWorld ordersStag) = Done tt.
Proof.
  destruct (only_Deploy_mutates tailWorld ordersStag) as (_ & _ & _ & _ & HBuild & HTail).
  repeat split; assumption.
Defined.

Lemma avoids_mutating_resolver_check (names : list string) (name what1 what2 : string) :
  avoids mutating
    (if negb (contains names name)
     then Printf what1 ;; Printf what2 ;; os_Exit 1
     else ret tt).
Proof. now destruct (contains names name). Qed.

(** ** Deploy *)

(** X2: the mutating calls of [Deploy] are always an initial part of upload,
    update-function-code, publish-version, update-alias, in this order and
    each at most once; and the version is published only after the upload and
    the code update succeeded and the waiter reported the update as applied. *)
Theorem Deploy_mutations_in_order (w : World) (Config : DeployConfig) :
  (exists n version,
     calls mutating (trace (Deploy w Config)) = firstn n (deployCalls Config version)) /\
  (In (PublishVersion (LambdaName Config)) (calls mutating (trace (Deploy w Config))) ->
   OsOpen_zip_err w = None /\ Upload_err w = None /\
   UpdateFunctionCode_err w = None /\ Wait_answer w maxWaitDur = Some None).
Proof.
  unfold Deploy, uploadToS3, deployCalls.
  destruct (OsOpen_zip_err w) as [e | ]; step;
    [split; [now exists 0%nat, None | intros []] | ].
  destruct (Upload_err w) as [e | ]; step;
    [split; [now exists 1%nat, None | cbn; intuition discriminate] | ].
  destruct (UpdateFunctionCode_err w) as [e | ]; step;
    [split; [now exists 2%nat, None | cbn; intuition discriminate] | ].
  destruct (Wait_answer w maxWaitDur) as [[e | ] | ]; step;
    [split; [now exists 2%nat, None | cbn; intuition discriminate] | |
     split; [now exists 2%nat, None | cbn; intuition discriminate] ].
  split; [ | auto].
  destruct (PublishVersion_answer w) as [publishOutput | e]; step;
    [ | now exists 3%nat, None].
  exists 4%nat, (lambda.Version publishOutput).
  destruct (UpdateAlias_err w) as [e | ]; step; [reflexivity | ].
  destruct (lambda.Version publishOutput) as [version | ]; step; reflexivity.
Qed.

Lemma Deploy_mutations_in_order_witness :
  In (PublishVersion "orders-stag") (calls mutating (trace (Deploy tailWorld ordersStag))) /\
  Wait_answer tailWorld maxWaitDur = Some None.
Proof.
  assert (Hin : In (PublishVersion (LambdaName ordersStag))
                   (calls mutating (trace (Deploy tailWorld ordersStag)))).
  { cbn. auto. }
  split; [exact Hin | ].
  apply (proj2 (Deploy_mutations_in_order tailWorld ordersStag) Hin).
Defined.

Lemma Deploy_Done_inv (w : World) (Config : DeployConfig) (t : list Event) :
  Deploy w Config = (t, Done tt) ->
  OsOpen_zip_err w = None /\ Upload_err w = None /\
  UpdateFunctionCode_err w = None /\ Wait_answer w maxWaitDur = Some None /\
  UpdateAlias_err w = None /\
  exists version,
    PublishVersion_answer w = Ok {| lambda.Version := Some version |} /\
    calls mutating t = deployCalls Config (Some version).
Proof.
  unfold Deploy, uploadToS3, deployCalls.
  destruct (OsOpen_zip_err w) as [e | ]; step; [discriminate | ].
  destruct (Upload_err w) as [e | ]; step; [discriminate | ].
  destruct (UpdateFunctionCode_err w) as [e | ]; step; [discriminate | ].
  destruct (Wait_answer w maxWaitDur) as [[e | ] | ]; step; try discriminate.
  destruct (PublishVersion_answer w) as [[version] | e]; step; [ | discriminate].
  cbn [lambda.Version].
  destruct (UpdateAlias_err w) as [e | ]; step; [discriminate | ].
  destruct version as [version | ]; step; [ | discriminate].
  intros H. injection H as <-. repeat split. now exists version.
Qed.

(** X3: [Deploy] returns normally exactly when the archive could be opened,
    the upload, the code update and the alias update succeeded, the waiter
    reported success and the publish call returned a version; in every other
    case it exits, panics or waits. *)
Theorem Deploy_returns_iff (w : World) (Config : DeployConfig) :
  outcome (Deploy w Config) = Done tt <->
  (OsOpen_zip_err w = None /\ Upload_err w = None /\
   UpdateFunctionCode_err w = None /\ Wait_answer w maxWaitDur = Some None /\
   UpdateAlias_err w = None /\
   exists version, PublishVersion_answer w = Ok {| lambda.Version := Some version |}).
Proof.
  split.
  - destruct (Deploy w Config) as [t r] eqn:Hrun. cbn [outcome snd]. intros ->.
    apply Deploy_Done_inv in Hrun as (H1 & H2 & H3 & H4 & H5 & version & H6 & _).
    repeat split; try assumption. now exists version.
  - intros (H1 & H2 & H3 & H4 & H5 & version & H6).
    unfold Deploy, uploadToS3. rewrite H1, H2, H3, H4, H6, H5. step. reflexivity.
Qed.

Lemma Deploy_returns_iff_witness :
  outcome (Deploy tailWorld ordersStag) = Done tt /\
  exists version,
    PublishVersion_answer tailWorld = Ok {| lambda.Version := Some version |}.
Proof.
  assert (Hdone : outcome (Deploy tailWorld ordersStag) = Done tt) by reflexivity.
  split; [exact Hdone | ].
  apply (proj1 (Deploy_returns_iff tailWorld ordersStag)) in Hdone
    as (_ & _ & _ & _ & _ & Hversion).
  exact Hversion.
Defined.

(** ** runDeploy *)

Lemma avoids_cloudwatch_Deploy (w : World) (Config : DeployConfig) :
  avoids isCloudwatchCall (Deploy w Config).
Proof.
  unfold Deploy, uploadToS3.
  repeat first
    [ apply avoids_bind; [ | intros ? ]
    | apply avoids_check
    | apply avoids_checked
    | apply avoids_deref
    | reflexivity
    | match goal with
      | |- avoids _ (await _ ?x) => destruct x
      end ].
Qed.

(** X4: without [--tail] a run never talks to CloudWatch Logs: no log group is
    listed or looked up and no live-tail session is opened or closed. *)
Theorem runDeploy_without_tail_avoids_cloudwatch (w : World) :
  tail w = false -> avoids isCloudwatchCall (runDeploy w).
Proof.
  intros Htail. unfold runDeploy. rewrite Htail.
  apply avoids_bind;
    [unfold LoadConfigOrDefaults, getAppName; cbv zeta; avoid | intros Config].
  apply avoids_bind; [unfold InitAWSClient; avoid | intros _].
  apply avoids_bind; [now apply avoids_GetAvailableFunctions | intros functions].
  apply avoids_bind; [avoid | intros _].
  apply avoids_bind; [unfold GetAvailableBuckets; avoid | intros buckets].
  apply avoids_bind; [avoid | intros _].
  apply avoids_bind; [now apply avoids_Build | intros Config'].
  apply avoids_bind; [apply avoids_cloudwatch_Deploy | intros _].
  reflexivity.
Qed.

Lemma runDeploy_without_tail_avoids_cloudwatch_witness :
  let w := ordersWorld false (cleanTree "abc1234") ordersFunctions [] [] in
  tail w = false /\ calls isCloudwatchCall (trace (runDeploy w)) = [] /\
  outcome (runDeploy w) = Done tt.
Proof.
  intros w. split; [reflexivity | ]. split; [ | reflexivity].
  exact (runDeploy_without_tail_avoids_cloudwatch w eq_refl).
Defined.

(** X5: a run that ends normally has deployed: its mutating calls are exactly
    the upload of the archive that [Build] named, the code update from that
    bucket and key, the publication of a version and the repointing of
    [canary] to the version returned. *)
Theorem runDeploy_success_has_deployed (w : World) :
  outcome (runDeploy w) = Done tt ->
  exists t0 Config0 t Config version,
    LoadConfigOrDefaults w = (t0, Done Config0) /\
    Build w Config0 = (t, Done Config) /\
    PublishVersion_answer w = Ok {| lambda.Version := Some version |} /\
    calls mutating (trace (runDeploy w)) = deployCalls Config (Some version).
Proof.
  destruct (runDeploy w) as [t r] eqn:Hrun. cbn [outcome snd trace fst]. intros ->.
  unfold runDeploy in Hrun.
  apply bind_Done_inv in Hrun as (tc & Config0 & r1 & Hconfig & Hrun & ->).
  apply bind_Done_inv in Hrun as (ti & [] & r2 & Hinit & Hrun & ->).
  apply bind_Done_inv in Hrun as (tf & functions & r3 & Hfunctions & Hrun & ->).
  apply bind_Done_inv in Hrun as (t1 & [] & r4 & Hcheck1 & Hrun & ->).
  apply bind_Done_inv in Hrun as (tb & buckets & r5 & Hbuckets & Hrun & ->).
  apply bind_Done_inv in Hrun as (t2 & [] & r6 & Hcheck2 & Hrun & ->).
  apply bind_Done_inv in Hrun as (tB & Config & r7 & HBuild & Hrun & ->).
  apply bind_Done_inv in Hrun as (tD & [] & tT & HDeploy & Htail & ->).
  apply Deploy_Done_inv in HDeploy as (_ & _ & _ & _ & _ & version & Hversion & Hcalls).
  exists tc, Config0, tB, Config, version. repeat split; try assumption.
  rewrite !calls_app, Hcalls.
  rewrite (avoids_at mutating (LoadConfigOrDefaults w) tc _
             ltac:(unfold LoadConfigOrDefaults, getAppName; cbv zeta; avoid) Hconfig).
  rewrite (avoids_at mutating (InitAWSClient w) ti _
             ltac:(unfold InitAWSClient; avoid) Hinit).
  rewrite (avoids_at mutating (GetAvailableFunctions w) tf _
             ltac:(now apply avoids_GetAvailableFunctions) Hfunctions).
  rewrite (avoids_at mutating _ t1 _ (avoids_mutating_resolver_check _ _ _ _) Hcheck1).
  rewrite (avoids_at mutating (GetAvailableBuckets w) tb _
             ltac:(unfold GetAvailableBuckets; avoid) Hbuckets).
  rewrite (avoids_at mutating _ t2 _ (avoids_mutating_resolver_check _ _ _ _) Hcheck2).
  rewrite (avoids_at mutating (Build w Config0) tB _
             ltac:(now apply avoids_Build) HBuild).
  assert (HT : calls mutating tT = []).
  { destruct (tail w).
    - apply (avoids_at mutating (TailLogs w Config) tT (Done tt));
        [now apply avoids_TailLogs | assumption].
    - now injection Htail as <-. }
  rewrite HT. cbn [app]. now rewrite app_nil_r.
Qed.

Lemma runDeploy_success_has_deployed_witness :
  outcome (runDeploy tailWorld) = Done tt /\
  calls mutating (trace (runDeploy tailWorld)) = deployCalls ordersStag (Some "7").
Proof.
  assert (Hdone : outcome (runDeploy tailWorld) = Done tt) by reflexivity.
  split; [exact Hdone | ].
  destruct (runDeploy_success_has_deployed tailWorld Hdone)
    as (t0 & Config0 & t & Config & version & Hconfig & HBuild & Hversion & Hcalls).
  injection Hconfig as _ <-. injection HBuild as _ <-. injection Hversion as <-.
  exact Hcalls.
Defined.

(** ** Build *)

Lemma getCurrentGitCommit_Done_trace (git : GitAnswers) (t : list Event) (name : string) :
  getCurrentGitCommit git = (t, Done name) ->
  t = [Called GitRevParseHEAD; Called GitStatusPorcelain] /\
  exists commit status,
    rev_parse_HEAD git = Ok commit /\ status_porcelain git = Ok status /\
    (7 <= String.length (TrimSpace commit))%nat /\
    name = substring 0 7 (TrimSpace commit)
           ++ (if (0 <? String.length status)%nat then "-dirty" else EmptyString).
Proof.
  unfold getCurrentGitCommit, slice_to.
  destruct (rev_parse_HEAD git) as [commit | e]; step; [ | discriminate].
  destruct (status_porcelain git) as [status | e]; step; [ | discriminate].
  destruct (7 <=? String.length (TrimSpace commit))%nat eqn:Hlen; step; [ | discriminate].
  unfold ret; cbn [fst snd]. intros H. injection H as <- <-.
  split; [reflexivity | ]. exists commit, status. apply Nat.leb_le in Hlen.
  repeat split; try assumption.
  destruct (0 <? String.length status)%nat; [reflexivity | now rewrite append_nil_r].
Qed.

Lemma determineFunctionArch_Done_inv
    (w : World) (Config : DeployConfig) (t : list Event) (goarch : string) :
  determineFunctionArch w Config = (t, Done goarch) ->
  exists first rest,
    GetFunctionConfiguration_answer w = Ok {| lambda.Architectures := first :: rest |} /\
    goarch = (if String.eqb first "arm64" then "arm64" else "amd64") /\
    t = [ Called (GetFunctionConfiguration (LambdaName Config));
          Stdout ("Architecture: " ++ " "
                  ++ ("[" ++ Join (first :: rest) " " ++ "]") ++ nl) ].
Proof.
  unfold determineFunctionArch.
  destruct (GetFunctionConfiguration_answer w) as [[archs] | e]; step; [ | discriminate].
  cbn [lambda.Architectures].
  destruct archs as [ | first rest]; [discriminate | ].
  unfold ret; cbn [fst snd]. intros H. injection H as <- <-.
  now exists first, rest.
Qed.

Lemma call_Done_inv {A} (c : Call) (answer a : A) (t : list Event) :
  call c answer = (t, Done a) -> t = [Called c] /\ a = answer.
Proof. unfold call. intros H. injection H as <- <-. auto. Qed.

Lemma check_Done_inv (what : string) (err : option error) (t : list Event) (u : unit) :
  check what err = (t, Done u) -> t = [] /\ err = None.
Proof. destruct err; [discriminate | ]. unfold check, ret. intros H. injection H as <-. auto. Qed.

(** A fallible step of [Build] or [Deploy]: the call and the check of its error. *)
Lemma step_Done_inv {B} (c : Call) (err : option error) (what : string)
    (rest : M B) (t : list Event) (b : B) :
  (e <- call c err ;; check what e ;; rest) = (t, Done b) ->
  err = None /\ exists t', t = Called c :: t' /\ rest = (t', Done b).
Proof.
  intros H.
  apply bind_Done_inv in H as (t1 & e & t2 & Hcall & H & ->).
  apply call_Done_inv in Hcall as (-> & ->).
  apply bind_Done_inv in H as (t3 & [] & t4 & Hcheck & H & ->).
  apply check_Done_inv in Hcheck as (-> & ->).
  split; [reflexivity | ]. now exists t4.
Qed.

Lemma Build_Done_inv (w : World) (Config Config' : DeployConfig) (t : list Event) :
  Build w Config = (t, Done Config') ->
  (GoBuild_err w = None /\ Chmod_err w = None /\ OsCreate_zip_err w = None /\
   OsOpen_bootstrap_err w = None /\ ZipCreate_err w = None /\ IoCopy_err w = None /\
   ZipClose_err w = None) /\
  (exists commit goarch name,
     getCurrentGitCommit (git_for_ldflags w)
       = ([Called GitRevParseHEAD; Called GitStatusPorcelain], Done commit) /\
     getCurrentGitCommit (git_for_filename w)
       = ([Called GitRevParseHEAD; Called GitStatusPorcelain], Done name) /\
     Config' = {| Env := Env Config; AppName := AppName Config;
                  LambdaName := LambdaName Config;
                  SourceCodeFilename := LambdaName Config ++ "-" ++ name ++ ".zip";
                  BuildsBucket := BuildsBucket Config;
                  LogGroupName := LogGroupName Config |} /\
     exists tarch,
       determineFunctionArch w Config = (tarch, Done goarch) /\
       t = ([Called GitRevParseHEAD; Called GitStatusPorcelain] ++ tarch
            ++ [ Called (GoBuild ("-s -w -X main.Commit=" ++ commit
                                  ++ " -X microservice.CommitHash=" ++ commit)%string
                                 [("GOARCH=" ++ goarch)%string;
                                  "CGO_ENABLED=0"; "GOOS=linux"]);
                 Called (Chmod "bootstrap" mode_0755);
                 Called GitRevParseHEAD; Called GitStatusPorcelain;
                 Called (OsCreate (SourceCodeFilename Config'));
                 Called (OsOpen "bootstrap"); Called (ZipCreate "bootstrap");
                 Called IoCopy; Called ZipClose ])%list).
Proof.
  unfold Build. intros H.
  apply bind_Done_inv in H as (t1 & commit & r1 & Hgit1 & H & ->).
  pose proof (getCurrentGitCommit_Done_trace _ _ _ Hgit1) as (-> & _).
  apply bind_Done_inv in H as (tarch & goarch & r2 & Harch & H & ->).
  apply step_Done_inv in H as (Hgo & r3 & -> & H).
  apply step_Done_inv in H as (Hchmod & r4 & -> & H).
  apply bind_Done_inv in H as (t2 & name & r5 & Hgit2 & H & ->).
  pose proof (getCurrentGitCommit_Done_trace _ _ _ Hgit2) as (-> & _).
  cbv zeta in H. cbn [SourceCodeFilename] in H.
  apply step_Done_inv in H as (Hcreate & r6 & -> & H).
  apply step_Done_inv in H as (Hopen & r7 & -> & H).
  apply step_Done_inv in H as (Hzip & r8 & -> & H).
  apply step_Done_inv in H as (Hcopy & r9 & -> & H).
  apply step_Done_inv in H as (Hclose & r10 & -> & H).
  unfold ret in H. injection H as <- <-.
  split; [repeat split; assumption | ].
  exists commit, goarch, name. repeat split; try assumption.
  exists tarch. split; [assumption | ]. cbn [SourceCodeFilename app]. reflexivity.
Qed.

(** X6: [Build] returns only when the compiler, the chmod and every step of
    writing the archive succeeded and the function has at least one
    architecture.  It then has changed nothing in the configuration but
    [SourceCodeFilename], and the archive it created and closed is the file
    of that name. *)
Theorem Build_returns_after_every_step
    (w : World) (Config Config' : DeployConfig) (t : list Event) :
  Build w Config = (t, Done Config') ->
  (GoBuild_err w = None /\ Chmod_err w = None /\ OsCreate_zip_err w = None /\
   OsOpen_bootstrap_err w = None /\ ZipCreate_err w = None /\ IoCopy_err w = None /\
   ZipClose_err w = None) /\
  (exists first rest,
     GetFunctionConfiguration_answer w = Ok {| lambda.Architectures := first :: rest |}) /\
  (Env Config' = Env Config /\ AppName Config' = AppName Config /\
   LambdaName Config' = LambdaName Config /\ BuildsBucket Config' = BuildsBucket Config /\
   LogGroupName Config' = LogGroupName Config) /\
  exists before,
    t = (before ++ [ Called (OsCreate (SourceCodeFilename Config'));
                     Called (OsOpen "bootstrap"); Called (ZipCreate "bootstrap");
                     Called IoCopy; Called ZipClose ])%list.
Proof.
  intros H.
  apply Build_Done_inv in H
    as (Hsteps & commit & goarch & name & _ & _ & -> & tarch & Harch & ->).
  split; [exact Hsteps | ].
  apply determineFunctionArch_Done_inv in Harch as (first & rest & Hanswer & _ & _).
  split; [now exists first, rest | ].
  split; [repeat split | ].
  eexists. rewrite !app_assoc.
  change (?l ++ [?a; ?b; ?c; ?d; ?x1; ?x2; ?x3; ?x4; ?x5])%list
    with (l ++ [a; b; c; d] ++ [x1; x2; x3; x4; x5])%list.
  rewrite app_assoc. reflexivity.
Qed.

Lemma Build_returns_after_every_step_witness :
  exists t Config',
    Build tailWorld ordersStag = (t, Done Config') /\
    ZipClose_err tailWorld = None /\
    LambdaName Config' = "orders-stag" /\
    exists before,
      t = (before ++ [ Called (OsCreate "orders-stag-abc1234.zip");
                       Called (OsOpen "bootstrap"); Called (ZipCreate "bootstrap");
                       Called IoCopy; Called ZipClose ])%list.
Proof.
  destruct (Build tailWorld ordersStag) as [t [Config' | | | ]] eqn:HBuild;
    try discriminate HBuild.
  exists t, Config'. split; [reflexivity | ].
  pose proof (Build_returns_after_every_step _ _ _ _ HBuild)
    as ((_ & _ & _ & _ & _ & _ & Hclose) & _ & (_ & _ & Hname & _) & before & Ht).
  injection HBuild as _ <-.
  split; [exact Hclose | ]. split; [exact Hname | ]. now exists before.
Defined.

(** X7: [determineFunctionArch] answers [arm64] or [amd64] and nothing else;
    it answers [arm64] exactly when the first architecture the platform
    reports for the function is [arm64], whatever else is listed. *)
Theorem determineFunctionArch_is_arm64_or_amd64
    (w : World) (Config : DeployConfig) (t : list Event) (goarch : string) :
  determineFunctionArch w Config = (t, Done goarch) ->
  (goarch = "arm64" \/ goarch = "amd64") /\
  exists first rest,
    GetFunctionConfiguration_answer w = Ok {| lambda.Architectures := first :: rest |} /\
    (goarch = "arm64" <-> first = "arm64").
Proof.
  intros H.
  apply determineFunctionArch_Done_inv in H as (first & rest & Hanswer & -> & _).
  destruct (String.eqb_spec first "arm64") as [-> | Hne].
  - split; [now left | ]. exists "arm64", rest. split; [assumption | tauto].
  - split; [now right | ]. exists first, rest. split; [assumption | ].
    split; [discriminate | contradiction].
Qed.

Lemma determineFunctionArch_is_arm64_or_amd64_witness :
  determineFunctionArch tailWorld ordersStag
    = ([ Called (GetFunctionConfiguration "orders-stag");
         Stdout ("Architecture:  [arm64]" ++ nl) ], Done "arm64") /\
  ("arm64" = "arm64" \/ "arm64" = "amd64").
Proof.
  split; [reflexivity | ].
  apply (determineFunctionArch_is_arm64_or_amd64 tailWorld ordersStag
           [ Called (GetFunctionConfiguration "orders-stag");
             Stdout ("Architecture:  [arm64]" ++ nl) ] "arm64" eq_refl).
Defined.

(** ** The archive that is uploaded *)

Lemma calls_bind {A B} (p : Call -> bool) (m : M A) (k : A -> M B) :
  calls p (trace (bind m k)) =
  (calls p (trace m)
   ++ match outcome m with
      | Done a => calls p (trace (k a))
      | _ => []
      end)%list.
Proof.
  rewrite bind_trace. destruct (outcome m); rewrite ?calls_app, ?app_nil_r; reflexivity.
Qed.

Lemma uploadToS3_uploads (w : World) (Config : DeployConfig) :
  calls isUploadCall (trace (uploadToS3 w Config)) = [] \/
  calls isUploadCall (trace (uploadToS3 w Config)) =
    [Upload (BuildsBucket Config) (SourceCodeFilename Config) "AES256"].
Proof.
  unfold uploadToS3.
  destruct (OsOpen_zip_err w) as [e | ]; step; [now left | ].
  destruct (Upload_err w) as [e | ]; step; now right.
Qed.

Lemma Deploy_uploads (w : World) (Config : DeployConfig) (next : M unit) :
  avoids isUploadCall next ->
  calls isUploadCall (trace (Deploy w Config ;; next)) =
  calls isUploadCall (trace (uploadToS3 w Config)).
Proof.
  intros Hnext. rewrite calls_bind.
  assert (HDeploy : calls isUploadCall (trace (Deploy w Config)) =
                    calls isUploadCall (trace (uploadToS3 w Config))).
  { unfold Deploy. rewrite calls_bind.
    assert (Hrest : forall u : unit,
              avoids isUploadCall
                (err <- call (UpdateFunctionCode (LambdaName Config) (BuildsBucket Config)
                                                 (SourceCodeFilename Config))
                             (UpdateFunctionCode_err w) ;;
                 check "Error updating Lambda function code:" err ;;
                 Println "Waiting for the function to be updated..." ;;
                 err <- await (WaitFunctionUpdated (LambdaName Config) maxWaitDur)
                              (Wait_answer w maxWaitDur) ;;
                 check "Error waiting for function update:" err ;;
                 answer <- call (PublishVersion (LambdaName Config))
                                (PublishVersion_answer w) ;;
                 publishOutput <- checked "Error publishing new Lambda version:" answer ;;
                 err <- call (UpdateAlias (LambdaName Config) "canary"
                                          (lambda.Version publishOutput))
                             (UpdateAlias_err w) ;;
                 check "Error updating Lambda alias 'canary':" err ;;
                 version <- deref (lambda.Version publishOutput) ;;
                 Printf ("Published new version " ++ version
                         ++ " and updated alias 'canary' to point to it" ++ nl))).
    { intros _.
      repeat first
        [ apply avoids_bind; [ | intros ? ]
        | apply avoids_check
        | apply avoids_checked
        | apply avoids_deref
        | reflexivity
        | match goal with
          | |- avoids _ (await _ ?x) => destruct x
          end ]. }
    destruct (outcome (uploadToS3 w Config)) as [[] | | | ];
      rewrite ?app_nil_r; try reflexivity.
    unfold avoids in Hrest. now rewrite Hrest, app_nil_r. }
  rewrite HDeploy.
  destruct (outcome (Deploy w Config)); rewrite ?app_nil_r; try reflexivity.
  unfold avoids in Hnext. now rewrite Hnext, app_nil_r.
Qed.

(** X8: in every run, what is uploaded is the archive that [Build] wrote in
    the same run: an upload is preceded by the creation and the closing of
    the file whose name is the upload's key, it goes to the configured builds
    bucket, and it asks for AES256 encryption. *)
Theorem runDeploy_uploads_the_built_archive
    (w : World) (pre post : list Event) (bucket key sse : string) :
  trace (runDeploy w) = (pre ++ Called (Upload bucket key sse) :: post)%list ->
  sse = "AES256" /\
  In (Called (OsCreate key)) pre /\ In (Called ZipClose) pre /\
  exists t Config,
    LoadConfigOrDefaults w = (t, Done Config) /\ bucket = BuildsBucket Config.
Proof.
  intros Htrace. unfold runDeploy in Htrace.
  apply mutation_after_quiet in Htrace
    as (tc & Config0 & r1 & Hconfig & -> & Htrace);
    [ | apply avoids_quiet; unfold LoadConfigOrDefaults, getAppName; cbv zeta; avoid
      | reflexivity].
  apply mutation_after_quiet in Htrace
    as (ti & [] & r2 & Hinit & -> & Htrace);
    [ | apply avoids_quiet; unfold InitAWSClient; avoid | reflexivity].
  apply mutation_after_quiet in Htrace
    as (tf & functions & r3 & Hfunctions & -> & Htrace);
    [ | apply avoids_quiet; now apply avoids_GetAvailableFunctions | reflexivity].
  apply mutation_after_quiet in Htrace
    as (t1 & [] & r4 & Hcheck1 & -> & Htrace);
    [ | apply avoids_quiet, avoids_mutating_resolver_check | reflexivity].
  apply mutation_after_quiet in Htrace
    as (tb & buckets & r5 & Hbuckets & -> & Htrace);
    [ | apply avoids_quiet; unfold GetAvailableBuckets; avoid | reflexivity].
  apply mutation_after_quiet in Htrace
    as (t2 & [] & r6 & Hcheck2 & -> & Htrace);
    [ | apply avoids_quiet, avoids_mutating_resolver_check | reflexivity].
  apply mutation_after_quiet in Htrace
    as (tB & Config & r7 & HBuild & -> & Htrace);
    [ | apply avoids_quiet; now apply avoids_Build | reflexivity].
  pose proof (calls_In isUploadCall _ _ _ _ Htrace eq_refl) as Hin.
  rewrite Deploy_uploads in Hin
    by (destruct (tail w); [now apply avoids_TailLogs | reflexivity]).
  apply Build_Done_inv in HBuild
    as (_ & commit & goarch & name & _ & _ & HConfig & tarch & _ & ->).
  destruct (uploadToS3_uploads w Config) as [Hnone | Hone];
    [rewrite Hnone in Hin; contradiction | ].
  rewrite Hone in Hin. destruct Hin as [Hin | []].
  injection Hin as <- <- <-.
  split; [reflexivity | ].
  assert (Hcreated : forall c,
            In c [Called (OsCreate (SourceCodeFilename Config)); Called ZipClose] ->
            In c (tc ++ ti ++ tf ++ t1 ++ tb ++ t2
                  ++ ([Called GitRevParseHEAD; Called GitStatusPorcelain] ++ tarch
                      ++ [ Called (GoBuild ("-s -w -X main.Commit=" ++ commit
                                            ++ " -X microservice.CommitHash=" ++ commit)%string
                                           [("GOARCH=" ++ goarch)%string;
                                            "CGO_ENABLED=0"; "GOOS=linux"]);
                           Called (Chmod "bootstrap" mode_0755);
                           Called GitRevParseHEAD; Called GitStatusPorcelain;
                           Called (OsCreate (SourceCodeFilename Config));
                           Called (OsOpen "bootstrap"); Called (ZipCreate "bootstrap");
                           Called IoCopy; Called ZipClose ]) ++ r7)%list).
  { intros c Hc. do 6 (apply in_or_app; right). apply in_or_app; left.
    apply in_or_app; right. apply in_or_app; right.
    cbn in Hc |- *. intuition. }
  split; [apply Hcreated; cbn; auto | ].
  split; [apply Hcreated; cbn; auto | ].
  exists tc, Config0. split; [assumption | ]. now rewrite HConfig.
Qed.

Lemma runDeploy_uploads_the_built_archive_witness :
  let run := trace (runDeploy tailWorld) in
  nth_error run 19 = Some (Called (Upload "e4f-builds" "orders-stag-abc1234.zip" "AES256")) /\
  In (Called (OsCreate "orders-stag-abc1234.zip")) (firstn 19 run) /\
  In (Called ZipClose) (firstn 19 run).
Proof.
  intros run. split; [reflexivity | ].
  destruct (runDeploy_uploads_the_built_archive tailWorld (firstn 19 run) (skipn 20 run)
              "e4f-builds" "orders-stag-abc1234.zip" "AES256" eq_refl)
    as (_ & Hcreate & Hclose & _).
  split; assumption.
Defined.

(** ** The revision string *)

Lemma substring_length (n : nat) :
  forall s : string, (n <= String.length s)%nat -> String.length (substring 0 n s) = n.
Proof.
  induction n as [ | n IH]; intros [ | c s] Hlen; cbn in *; try reflexivity; try lia.
  rewrite IH; [reflexivity | lia].
Qed.

Lemma append_String (c : ascii) (a b : string) : String c a ++ b = String c (a ++ b).
Proof. reflexivity. Qed.

Lemma append_Empty (b : string) : EmptyString ++ b = b.
Proof. reflexivity. Qed.

Lemma trimLeft_allSpace (lead s : string) :
  allSpace lead = true -> trimLeft (lead ++ s) = trimLeft s.
Proof.
  induction lead as [ | c lead IH]; cbn [allSpace]; intros H.
  - now rewrite append_Empty.
  - apply andb_prop in H as [Hc Hlead].
    rewrite append_String. cbn [trimLeft]. rewrite Hc. now apply IH.
Qed.

Lemma trimRight_allSpace (trail : string) :
  allSpace trail = true -> trimRight trail = EmptyString.
Proof.
  induction trail as [ | c trail IH]; cbn [allSpace trimRight]; intros H; [reflexivity | ].
  apply andb_prop in H as [Hc Htrail]. now rewrite (IH Htrail), Hc.
Qed.

Lemma trimRight_noSpace (rev trail : string) :
  noSpace rev = true -> allSpace trail = true -> trimRight (rev ++ trail) = rev.
Proof.
  intros Hrev Htrail. induction rev as [ | c rev IH]; cbn [noSpace] in Hrev.
  - rewrite append_Empty. now apply trimRight_allSpace.
  - apply andb_prop in Hrev as [Hc Hrev]. apply negb_true_iff in Hc.
    rewrite append_String. cbn [trimRight]. rewrite (IH Hrev), Hc.
    now destruct rev.
Qed.

Lemma TrimSpace_surrounded (lead rev trail : string) :
  allSpace lead = true -> allSpace trail = true -> noSpace rev = true ->
  TrimSpace (lead ++ rev ++ trail) = rev.
Proof.
  intros Hlead Htrail Hrev. unfold TrimSpace. rewrite trimLeft_allSpace by assumption.
  destruct rev as [ | c rev].
  - rewrite append_Empty.
    assert (Hall : trimLeft trail = EmptyString).
    { clear Hlead Hrev. induction trail as [ | x trail IH]; [reflexivity | ].
      cbn [allSpace] in Htrail. apply andb_prop in Htrail as [Hx Htrail].
      cbn [trimLeft]. rewrite Hx. now apply IH. }
    now rewrite Hall.
  - pose proof Hrev as Hrev'. cbn [noSpace] in Hrev'.
    apply andb_prop in Hrev' as [Hc _]. apply negb_true_iff in Hc.
    rewrite append_String. cbn [trimLeft]. rewrite Hc.
    rewrite <- append_String. now apply trimRight_noSpace.
Qed.

(** X9: white space around the revision that [git rev-parse HEAD] prints does
    not matter: whatever blanks, tabs or line ends precede or follow a
    revision of at least 7 characters, [getCurrentGitCommit] returns the first
    7 characters of the revision itself, with [-dirty] appended exactly when
    [git status --porcelain] printed something. *)
Theorem getCurrentGitCommit_ignores_surrounding_space
    (git : GitAnswers) (lead rev trail status : string) :
  allSpace lead = true -> allSpace trail = true -> noSpace rev = true ->
  (7 <= String.length rev)%nat ->
  rev_parse_HEAD git = Ok (lead ++ rev ++ trail) ->
  status_porcelain git = Ok status ->
  getCurrentGitCommit git =
    ([Called GitRevParseHEAD; Called GitStatusPorcelain],
     Done (substring 0 7 rev
           ++ (if (0 <? String.length status)%nat then "-dirty" else EmptyString))).
Proof.
  intros Hlead Htrail Hrev Hlen Hcommit Hstatus.
  pose proof (getCurrentGitCommit_ok git _ status Hcommit Hstatus) as H.
  rewrite TrimSpace_surrounded in H by assumption. now apply H.
Qed.

Lemma getCurrentGitCommit_ignores_surrounding_space_witness :
  let tab := String (ascii_of_nat 9) EmptyString in
  let cr := String (ascii_of_nat 13) EmptyString in
  getCurrentGitCommit
    {| rev_parse_HEAD := Ok ((" " ++ tab) ++ "abc1234def" ++ (cr ++ nl));
       status_porcelain := Ok EmptyString |}
  = ([Called GitRevParseHEAD; Called GitStatusPorcelain], Done "abc1234").
Proof.
  intros tab cr.
  apply (getCurrentGitCommit_ignores_surrounding_space
           {| rev_parse_HEAD := Ok ((" " ++ tab) ++ "abc1234def" ++ (cr ++ nl));
              status_porcelain := Ok EmptyString |}
           (" " ++ tab) "abc1234def" (cr ++ nl) EmptyString);
    try reflexivity.
  vm_compute. lia.
Defined.

(** X10: the revision string that names the archive has exactly 7 characters
    when the working tree is clean and 13 when it is not, the last six then
    being [-dirty]. *)
Theorem getCurrentGitCommit_length (git : GitAnswers) (t : list Event) (name : string) :
  getCurrentGitCommit git = (t, Done name) ->
  exists status,
    status_porcelain git = Ok status /\
    match status with
    | EmptyString => String.length name = 7%nat
    | _ => String.length name = 13%nat /\ exists short, name = short ++ "-dirty"
    end.
Proof.
  intros H.
  apply getCurrentGitCommit_Done_trace in H
    as (_ & commit & status & _ & Hstatus & Hlen & ->).
  exists status. split; [assumption | ].
  destruct status as [ | c status]; cbn [String.length Nat.ltb Nat.leb].
  - now rewrite append_nil_r, substring_length.
  - split; [ | now eexists].
    rewrite length_append, substring_length by assumption. reflexivity.
Qed.

Lemma getCurrentGitCommit_length_witness :
  getCurrentGitCommit (dirtyTree "abc1234def")
    = ([Called GitRevParseHEAD; Called GitStatusPorcelain], Done "abc1234-dirty") /\
  String.length "abc1234-dirty" = 13%nat.
Proof.
  split; [reflexivity | ].
  destruct (getCurrentGitCommit_length (dirtyTree "abc1234def")
              [Called GitRevParseHEAD; Called GitStatusPorcelain] "abc1234-dirty" eq_refl)
    as (status & Hstatus & Hshape).
  injection Hstatus as <-. exact (proj1 Hshape).
Defined.

(** ** Configuration defaults *)

Lemma isEmpty_true (s : string) : isEmpty s = true <-> s = EmptyString.
Proof. destruct s; cbn; split; congruence. Qed.

Lemma isEmpty_false (s : string) : isEmpty s = false <-> s <> EmptyString.
Proof. destruct s; cbn; split; congruence. Qed.

(** X11: the configuration [LoadConfigOrDefaults] returns always has the
    function name [<AppName>-<Env>], whatever the file said about it; its
    environment, builds bucket and log group are never empty; a value the
    file gives for the environment, the app name, the bucket or the log group
    is kept; and a log group the file leaves out is [/aws/lambda/] followed by
    the function name. *)
Theorem LoadConfigOrDefaults_invariants (w : World) (t : list Event) (Config : DeployConfig) :
  LoadConfigOrDefaults w = (t, Done Config) ->
  LambdaName Config = AppName Config ++ "-" ++ Env Config /\
  (Env Config <> EmptyString /\ BuildsBucket Config <> EmptyString /\
   LogGroupName Config <> EmptyString) /\
  ((Env (LoadConfig w) <> EmptyString -> Env Config = Env (LoadConfig w)) /\
   (AppName (LoadConfig w) <> EmptyString -> AppName Config = AppName (LoadConfig w)) /\
   (BuildsBucket (LoadConfig w) <> EmptyString ->
    BuildsBucket Config = BuildsBucket (LoadConfig w)) /\
   (LogGroupName (LoadConfig w) <> EmptyString ->
    LogGroupName Config = LogGroupName (LoadConfig w))) /\
  ((Env (LoadConfig w) = EmptyString -> Env Config = "stag") /\
   (BuildsBucket (LoadConfig w) = EmptyString -> BuildsBucket Config = "e4f-builds") /\
   (LogGroupName (LoadConfig w) = EmptyString ->
    LogGroupName Config = "/aws/lambda/" ++ LambdaName Config)).
Proof.
  unfold LoadConfigOrDefaults. cbv zeta. intros H.
  apply bind_Done_inv in H as (t1 & appName & t2 & HappName & H & ->).
  unfold ret in H. injection H as <- <-.
  cbn [Env AppName LambdaName BuildsBucket LogGroupName].
  assert (Happ : AppName (LoadConfig w) <> EmptyString -> appName = AppName (LoadConfig w)).
  { intros Hne. apply isEmpty_false in Hne. rewrite Hne in HappName.
    unfold ret in HappName. now injection HappName as <- <-. }
  destruct (isEmpty (Env (LoadConfig w))) eqn:Henv;
    [apply isEmpty_true in Henv | apply isEmpty_false in Henv];
    (destruct (isEmpty (BuildsBucket (LoadConfig w))) eqn:Hbucket;
     [apply isEmpty_true in Hbucket | apply isEmpty_false in Hbucket]);
    (destruct (isEmpty (LogGroupName (LoadConfig w))) eqn:Hgroup;
     [apply isEmpty_true in Hgroup | apply isEmpty_false in Hgroup]);
    repeat split; try assumption; try discriminate; try exact Happ;
    intros; try reflexivity; congruence.
Qed.

Lemma LoadConfigOrDefaults_invariants_witness :
  exists t Config,
    LoadConfigOrDefaults tailWorld = (t, Done Config) /\
    LambdaName Config = "orders-stag" /\
    BuildsBucket Config = "e4f-builds" /\
    LogGroupName Config = "/aws/lambda/orders-stag".
Proof.
  destruct (LoadConfigOrDefaults tailWorld) as [t [Config | | | ]] eqn:H;
    try discriminate H.
  exists t, Config. split; [reflexivity | ].
  pose proof (LoadConfigOrDefaults_invariants tailWorld t Config H)
    as (Hname & _ & _ & (_ & Hbucket & Hgroup)).
  injection H as _ <-.
  split; [exact Hname | ].
  split; [now apply Hbucket | now apply Hgroup].
Defined.



(** ** The consumer of the event stream, in general *)

Lemma printSessionResults_renders (results : list LiveTailSessionLogEvent) :
  exists unrendered,
    presentMessages results =
      (rendered (trace (printSessionResults results)) ++ unrendered)%list /\
    (outcome (printSessionResults results) = Done tt -> unrendered = []).
Proof.
  induction results as [ | e rest (unrendered & IH & IHdone)];
    cbn [printSessionResults presentMessages flat_map].
  - now exists [].
  - fold (presentMessages rest).
    destruct (Message e) as [msg | ]; cbn [deref].
    + step. exists unrendered. cbn [trace outcome fst snd rendered app].
      split; [now rewrite IH | exact IHdone].
    + exists (presentMessages rest). split; [reflexivity | discriminate].
Qed.

(** X13: whatever arrives on the stream, the lines the consumer renders are an
    initial part of the messages delivered in session updates, in the order
    delivered: no line is rendered twice, reordered or invented.  While only
    session frames with messages arrive, every message delivered is rendered. *)
Theorem consumer_renders_messages_in_order (events : list StreamItem) :
  (exists unrendered,
     messagesOf events =
       (rendered (trace (handleEventStreamAsync events)) ++ unrendered)%list) /\
  (forallb passes events = true ->
   rendered (trace (handleEventStreamAsync events)) = messagesOf events).
Proof.
  induction events as [ | item rest ((unrendered & IH) & IHpass)].
  - split; [now exists [] | reflexivity].
  - rewrite handleEventStreamAsync_cons. cbn [messagesOf forallb].
    unfold passes at 1.
    destruct (frame item) as [ | results | | goType].
    + step. cbn [trace fst rendered]. split; [now exists unrendered | exact IHpass].
    + destruct (printSessionResults_renders results) as (left_out & Hprint & Hdone).
      rewrite bind_trace.
      destruct (outcome (printSessionResults results)) as [[] | code | why | ] eqn:Hout.
      * rewrite (Hdone eq_refl), app_nil_r in Hprint.
        rewrite rendered_app, Hprint. split.
        -- exists unrendered. now rewrite IH, app_assoc.
        -- intros Hpass. apply andb_prop in Hpass as [_ Hpass]. now rewrite IHpass.
      * split; [ | intros Hpass; apply andb_prop in Hpass as [Hpass _];
                   apply printSessionResults_present in Hpass; congruence].
        exists (left_out ++ messagesOf rest)%list. now rewrite Hprint, app_assoc.
      * split; [ | intros Hpass; apply andb_prop in Hpass as [Hpass _];
                   apply printSessionResults_present in Hpass; congruence].
        exists (left_out ++ messagesOf rest)%list. now rewrite Hprint, app_assoc.
      * split; [ | intros Hpass; apply andb_prop in Hpass as [Hpass _];
                   apply printSessionResults_present in Hpass; congruence].
        exists (left_out ++ messagesOf rest)%list. now rewrite Hprint, app_assoc.
    + split; [ | discriminate].
      exists (messagesOf rest). now destruct (stream_Err item).
    + split; [ | discriminate].
      exists (messagesOf rest). now destruct (stream_Err item).
Qed.

Lemma consumer_renders_messages_in_order_witness :
  let events :=
    [ received SessionStart;
      received (SessionUpdate [logEvent "a"; logEvent "b"]);
      received SessionStart;
      received (SessionUpdate [logEvent "c"]) ] in
  forallb passes events = true /\
  rendered (trace (handleEventStreamAsync events)) = ["a"; "b"; "c"].
Proof.
  intros events. split; [reflexivity | ].
  exact (proj2 (consumer_renders_messages_in_order events) eq_refl).
Defined.

(** X14: the consumer looks at the stream's error only when a frame arrives
    that is neither a session start nor a session update: a pending error on
    a session frame changes nothing. *)
Theorem consumer_ignores_error_on_session_frames (events : list StreamItem) :
  handleEventStreamAsync (map withoutSessionErr events) = handleEventStreamAsync events.
Proof.
  induction events as [ | [f err] rest IH]; [reflexivity | ].
  cbn [map]. rewrite !handleEventStreamAsync_cons.
  destruct f as [ | results | | goType]; cbn [withoutSessionErr frame stream_Err].
  - now rewrite IH.
  - now rewrite IH.
  - now destruct err.
  - now destruct err.
Qed.

(** X15: how the consumer ends after frames it has handled: a nil frame without
    a pending error makes it return, and what follows is never received; a nil
    frame with a pending error, and a frame of an unknown type without one,
    end the process with status 1 after logging the error or the type. *)
Theorem consumer_endings (pre post : list StreamItem) (e : error) (goType : string) :
  forallb passes pre = true ->
  handleEventStreamAsync (pre ++ {| frame := NilFrame; stream_Err := None |} :: post)
    = (trace (handleEventStreamAsync pre), Done tt) /\
  handleEventStreamAsync (pre ++ {| frame := NilFrame; stream_Err := Some e |} :: post)
    = ((trace (handleEventStreamAsync pre)
        ++ [LogFatalf ("Error occured during streaming: " ++ e)])%list, Exit 1) /\
  handleEventStreamAsync
    (pre ++ {| frame := UnknownFrame goType; stream_Err := None |} :: post)
    = ((trace (handleEventStreamAsync pre)
        ++ [LogFatalf ("Unknown event type: " ++ goType)])%list, Exit 1).
Proof.
  intros Hpass. repeat split.
  - destruct (consumer_passes_prefix pre
                ({| frame := NilFrame; stream_Err := None |} :: post) Hpass) as [_ ->].
    cbn. now rewrite app_nil_r.
  - now destruct (consumer_passes_prefix pre
                    ({| frame := NilFrame; stream_Err := Some e |} :: post) Hpass)
      as [_ ->].
  - now destruct (consumer_passes_prefix pre
                    ({| frame := UnknownFrame goType; stream_Err := None |} :: post) Hpass)
      as [_ ->].
Qed.

Lemma consumer_endings_witness :
  let pre := [ received SessionStart; received (SessionUpdate [logEvent "a"]) ] in
  forallb passes pre = true /\
  handleEventStreamAsync
    (pre ++ received NilFrame :: [received (SessionUpdate [logEvent "late"])])
    = ([Stdout ("Logs streaming session started" ++ nl); LogPrintln "a"], Done tt).
Proof.
  intros pre. split; [reflexivity | ].
  exact (proj1 (consumer_endings pre [received (SessionUpdate [logEvent "late"])]
                  "unused" "unused" eq_refl)).
Defined.

Lemma printSessionResults_nil_message
    (before after : list LiveTailSessionLogEvent) (ts : option Z) :
  forallb (fun e => match Message e with Some _ => true | None => false end) before = true ->
  printSessionResults (before ++ {| Message := None; Timestamp := ts |} :: after) =
    (map LogPrintln (presentMessages before),
     Panic "invalid memory address or nil pointer dereference").
Proof.
  induction before as [ | e before IH]; cbn [forallb app printSessionResults]; intros H.
  - reflexivity.
  - destruct (Message e) as [msg | ] eqn:Hmsg; [ | discriminate].
    cbn [andb] in H. step. rewrite (IH H).
    cbn [fst snd presentMessages flat_map map]. rewrite Hmsg. reflexivity.
Qed.

(** X16: a log event without a message stops the process in the middle of its
    session update: the lines before it have been rendered, then the consumer
    panics, and neither the rest of the update nor any later frame is
    rendered. *)
Theorem consumer_panics_on_nil_message
    (pre post : list StreamItem) (before after : list LiveTailSessionLogEvent)
    (ts : option Z) (err : option error) :
  forallb passes pre = true ->
  forallb (fun e => match Message e with Some _ => true | None => false end) before = true ->
  let update :=
    {| frame := SessionUpdate (before ++ {| Message := None; Timestamp := ts |} :: after);
       stream_Err := err |} in
  outcome (handleEventStreamAsync (pre ++ update :: post))
    = Panic "invalid memory address or nil pointer dereference" /\
  rendered (trace (handleEventStreamAsync (pre ++ update :: post)))
    = (messagesOf pre ++ presentMessages before)%list.
Proof.
  intros Hpre Hbefore update.
  destruct (consumer_passes_prefix pre (update :: post) Hpre) as [_ ->].
  rewrite handleEventStreamAsync_cons. cbn [update frame].
  rewrite (printSessionResults_nil_message before after ts Hbefore).
  cbn [outcome trace fst snd bind]. split; [reflexivity | ].
  rewrite rendered_app.
  assert (Hpre' : rendered (trace (handleEventStreamAsync pre)) = messagesOf pre).
  { clear - Hpre. induction pre as [ | item pre IH]; [reflexivity | ].
    cbn [forallb] in Hpre. apply andb_prop in Hpre as [Hitem Hpre].
    specialize (IH Hpre). rewrite handleEventStreamAsync_cons. cbn [messagesOf].
    unfold passes in Hitem. destruct (frame item) as [ | results | | goType];
      try discriminate.
    - step. exact IH.
    - destruct (printSessionResults_renders results) as (left_out & Hprint & Hdone).
      apply printSessionResults_present in Hitem.
      rewrite (Hdone Hitem), app_nil_r in Hprint.
      rewrite bind_trace, Hitem, rendered_app, IH, Hprint. reflexivity. }
  rewrite Hpre'. f_equal.
  clear. induction (presentMessages before) as [ | m l IH]; [reflexivity | ].
  cbn [map rendered]. now rewrite IH.
Qed.

Lemma consumer_panics_on_nil_message_witness :
  let pre := [ received (SessionUpdate [logEvent "a"]) ] in
  let events :=
    (pre ++ received (SessionUpdate ([logEvent "b"]
                       ++ {| Message := None; Timestamp := None |} :: [logEvent "c"]))
         :: [received (SessionUpdate [logEvent "d"])])%list in
  rendered (trace (handleEventStreamAsync events)) = ["a"; "b"] /\
  outcome (handleEventStreamAsync events)
    = Panic "invalid memory address or nil pointer dereference".
Proof.
  intros pre events.
  destruct (consumer_panics_on_nil_message pre [received (SessionUpdate [logEvent "d"])]
              [logEvent "b"] [logEvent "c"] None None eq_refl eq_refl) as (Hout & Hrendered).
  split; [exact Hrendered | exact Hout].
Defined.

(** ** TailLogs *)

Lemma avoided_prefix_split (p : Call -> bool) (l r pre post : list Event) (c : Call) :
  calls p l = [] ->
  p c = true ->
  (l ++ r)%list = (pre ++ Called c :: post)%list ->
  exists rest, pre = (l ++ rest)%list /\ r = (rest ++ Called c :: post)%list.
Proof.
  intros Hl Hc. revert pre.
  induction l as [ | e l IH]; intros pre Heq; cbn [app] in Heq.
  - now exists pre.
  - assert (Hl' : calls p l = []).
    { destruct e as [c0 | | | ]; try exact Hl.
      cbn [calls] in Hl. now destruct (p c0). }
    destruct pre as [ | e' pre]; cbn [app] in Heq; injection Heq as -> Heq.
    + cbn [calls] in Hl. now rewrite Hc in Hl.
    + destruct (IH Hl' pre Heq) as (rest & -> & ->). now exists rest.
Qed.

(** A call of kind [p] in a run that starts with a part avoiding [p] comes
    after that part has returned. *)
Lemma call_after_avoiding {A B} (p : Call -> bool) (m : M A) (k : A -> M B)
    (pre post : list Event) (c : Call) :
  avoids p m ->
  p c = true ->
  trace (bind m k) = (pre ++ Called c :: post)%list ->
  exists t a rest,
    m = (t, Done a) /\ pre = (t ++ rest)%list /\
    trace (k a) = (rest ++ Called c :: post)%list.
Proof.
  unfold avoids. destruct m as [t [a | code | why | ]]; cbn [trace fst];
    intros Havoid Hc Heq.
  - apply (avoided_prefix_split p _ _ _ _ _ Havoid Hc) in Heq as (rest & -> & Hk).
    now exists t, a, rest.
  - rewrite <- (app_nil_r t) in Heq.
    apply (avoided_prefix_split p _ _ _ _ _ Havoid Hc) in Heq as (rest & _ & Hk).
    now destruct rest.
  - rewrite <- (app_nil_r t) in Heq.
    apply (avoided_prefix_split p _ _ _ _ _ Havoid Hc) in Heq as (rest & _ & Hk).
    now destruct rest.
  - rewrite <- (app_nil_r t) in Heq.
    apply (avoided_prefix_split p _ _ _ _ _ Havoid Hc) in Heq as (rest & _ & Hk).
    now destruct rest.
Qed.

Lemma getARNofLogGroup_Done_inv
    (w : World) (Config : DeployConfig) (t : list Event) (id : string) :
  getARNofLogGroup w Config = (t, Done id) ->
  t = [Called (DescribeLogGroups (Some (LogGroupName Config)) None)] /\
  exists output first rest arn,
    DescribeLogGroups_by_prefix w = Ok output /\
    cloudwatchlogs.LogGroups output = first :: rest /\
    cloudwatchlogs.Arn first = Some arn /\
    id = TrimSuffix arn ":*".
Proof.
  unfold getARNofLogGroup.
  destruct (DescribeLogGroups_by_prefix w) as [output | e]; step; [ | discriminate].
  destruct (cloudwatchlogs.LogGroups output) as [ | first rest] eqn:Hgroups; step;
    [discriminate | ].
  destruct (cloudwatchlogs.Arn first) as [arn | ] eqn:Harn; step; [ | discriminate].
  unfold ret; cbn [fst snd]. intros H. injection H as <- <-.
  split; [reflexivity | ]. now exists output, first, rest, arn.
Qed.

Lemma avoids_getARNofLogGroup (p : Call -> bool) (w : World) (Config : DeployConfig) :
  (forall prefix token, p (DescribeLogGroups prefix token) = false) ->
  avoids p (getARNofLogGroup w Config).
Proof.
  intros Hp. unfold getARNofLogGroup.
  apply avoids_bind; [unfold avoids; cbn; now rewrite Hp | intros answer].
  apply avoids_bind; [apply avoids_checked | intros output].
  destruct (cloudwatchlogs.LogGroups output); avoid.
Qed.

(** X17: [TailLogs] opens a live-tail session only after the listing of log
    groups has completed and contains the configured log group, and after the
    prefix query; the request names one log group, the first of the prefix
    query's answer with [:*] trimmed from its ARN, and carries the fixed filter
    pattern. *)
Theorem TailLogs_starts_after_resolution
    (w : World) (Config : DeployConfig) (pre post : list Event)
    (ids : list string) (pattern : string) :
  trace (TailLogs w Config) = (pre ++ Called (StartLiveTail ids pattern) :: post)%list ->
  confirmed (getAvailableLogGroups w) (LogGroupName Config) pre /\
  In (Called (DescribeLogGroups (Some (LogGroupName Config)) None)) pre /\
  pattern = LogEventFilterPattern /\
  exists output first rest arn,
    DescribeLogGroups_by_prefix w = Ok output /\
    cloudwatchlogs.LogGroups output = first :: rest /\
    cloudwatchlogs.Arn first = Some arn /\
    ids = [TrimSuffix arn ":*"].
Proof.
  intros Htrace. unfold TailLogs in Htrace.
  apply (call_after_avoiding isStartLiveTail) in Htrace
    as (tg & names & r1 & Hlist & -> & Htrace);
    [ | now apply avoids_getAvailableLogGroups | reflexivity].
  destruct (contains names (LogGroupName Config)) eqn:Hfound; cbn [negb] in Htrace.
  2:{ apply (call_after_avoiding isStartLiveTail) in Htrace as (? & ? & ? & Hstop & _);
        [discriminate Hstop | reflexivity | reflexivity]. }
  rewrite bind_ret in Htrace.
  apply (call_after_avoiding isStartLiveTail) in Htrace
    as (ta & id & r2 & Harn & -> & Htrace);
    [ | now apply avoids_getARNofLogGroup | reflexivity].
  apply getARNofLogGroup_Done_inv in Harn
    as (-> & output & first & rest & arn & Hanswer & Hgroups & Harn & ->).
  pose proof (calls_In isStartLiveTail _ _ _ _ Htrace eq_refl) as Hin.
  rewrite calls_bind in Hin. cbn [call trace outcome fst snd calls isStartLiveTail] in Hin.
  rewrite calls_bind in Hin.
  assert (Hfatal : calls isStartLiveTail
                     (trace (match StartLiveTail_err w with
                             | Some e => log_Fatalf ("Failed to start streaming: " ++ e)
                             | None => ret tt
                             end)) = []) by now destruct (StartLiveTail_err w).
  rewrite Hfatal in Hin. cbn [app] in Hin.
  assert (Hrest : calls isStartLiveTail
                    (trace (go (handleEventStreamAsync (stream_events w)) ;;
                            call StreamClose tt)) = []).
  { apply avoids_bind; [apply avoids_go, avoids_handleEventStreamAsync | reflexivity]. }
  destruct (outcome (match StartLiveTail_err w with
                     | Some e => log_Fatalf ("Failed to start streaming: " ++ e)
                     | None => ret tt
                     end)) as [[] | | | ];
    rewrite ?Hrest in Hin; destruct Hin as [Hin | []]; injection Hin as <- <-.
  all: split; [now exists tg, names, [], ([Called (DescribeLogGroups
                                            (Some (LogGroupName Config)) None)] ++ r2)%list
              | ].
  all: split; [apply in_or_app; right; now left | ].
  all: split; [reflexivity | now exists output, first, rest, arn].
Qed.

Lemma TailLogs_starts_after_resolution_witness :
  let run := trace (TailLogs tailWorld ordersStag) in
  nth_error run 3 =
    Some (Called (StartLiveTail
                    ["arn:aws:logs:us-east-1:123456789012:log-group:/aws/lambda/orders-stag"]
                    LogEventFilterPattern)) /\
  confirmed (getAvailableLogGroups tailWorld) "/aws/lambda/orders-stag" (firstn 3 run).
Proof.
  intros run. split; [reflexivity | ].
  exact (proj1 (TailLogs_starts_after_resolution tailWorld ordersStag
                  (firstn 3 run) (skipn 4 run)
                  ["arn:aws:logs:us-east-1:123456789012:log-group:/aws/lambda/orders-stag"]
                  LogEventFilterPattern eq_refl)).
Defined.

Lemma call_reached {A B} (p : Call -> bool) (m : M A) (k : A -> M B) :
  avoids p m ->
  calls p (trace (bind m k)) <> [] ->
  exists a,
    outcome m = Done a /\ calls p (trace (k a)) <> [] /\
    outcome (bind m k) = outcome (k a).
Proof.
  unfold avoids. destruct m as [t [a | code | why | ]]; cbn [trace outcome bind fst snd];
    intros Havoid Hcalls; try contradiction.
  exists a. rewrite calls_app, Havoid in Hcalls. auto.
Qed.

(** X18: [TailLogs] closes the stream exactly in the runs in which it returns,
    and then as its last action; when the log group is missing, the session
    cannot be started or the consumer ends the process, the stream is never
    closed. *)
Theorem TailLogs_closes_stream_iff_it_returns (w : World) (Config : DeployConfig) :
  (In (Called StreamClose) (trace (TailLogs w Config)) <->
   outcome (TailLogs w Config) = Done tt) /\
  (outcome (TailLogs w Config) = Done tt ->
   exists before, trace (TailLogs w Config) = (before ++ [Called StreamClose])%list).
Proof.
  assert (Hlast : outcome (TailLogs w Config) = Done tt ->
                  exists before,
                    trace (TailLogs w Config) = (before ++ [Called StreamClose])%list).
  { destruct (TailLogs w Config) as [t r] eqn:Hrun. cbn [outcome trace fst snd].
    intros ->. unfold TailLogs in Hrun.
    apply bind_Done_inv in Hrun as (t1 & names & r1 & _ & Hrun & ->).
    apply bind_Done_inv in Hrun as (t2 & [] & r2 & _ & Hrun & ->).
    apply bind_Done_inv in Hrun as (t3 & arn & r3 & _ & Hrun & ->).
    apply bind_Done_inv in Hrun as (t4 & err & r4 & _ & Hrun & ->).
    apply bind_Done_inv in Hrun as (t5 & [] & r5 & _ & Hrun & ->).
    apply bind_Done_inv in Hrun as (t6 & [] & r6 & _ & Hrun & ->).
    apply call_Done_inv in Hrun as (-> & _).
    exists (t1 ++ t2 ++ t3 ++ t4 ++ t5 ++ t6)%list. now rewrite <- !app_assoc. }
  split; [split | exact Hlast].
  - intros Hin.
    assert (Hcalls : calls isStreamClose (trace (TailLogs w Config)) <> []).
    { apply in_split in Hin as (pre & post & Heq).
      pose proof (calls_In isStreamClose _ _ _ _ Heq eq_refl) as Hc.
      intros Hnil. now rewrite Hnil in Hc. }
    unfold TailLogs in *.
    apply call_reached in Hcalls as (names & _ & Hcalls & ->);
      [ | now apply avoids_getAvailableLogGroups].
    apply call_reached in Hcalls as ([] & _ & Hcalls & ->); [ | avoid].
    apply call_reached in Hcalls as (arn & _ & Hcalls & ->);
      [ | now apply avoids_getARNofLogGroup].
    apply call_reached in Hcalls as (err & _ & Hcalls & ->); [ | reflexivity].
    apply call_reached in Hcalls as ([] & _ & Hcalls & ->); [ | now destruct err].
    apply call_reached in Hcalls as ([] & _ & Hcalls & ->);
      [ | apply avoids_go, avoids_handleEventStreamAsync].
    reflexivity.
  - intros Hdone. destruct (Hlast Hdone) as (before & ->).
    apply in_or_app. right. now left.
Qed.

Lemma TailLogs_closes_stream_iff_it_returns_witness :
  In (Called StreamClose) (trace (TailLogs tailWorld ordersStag)) /\
  outcome (TailLogs tailWorld ordersStag) = Done tt /\
  ~ In (Called StreamClose)
      (trace (TailLogs (with_stream [ {| frame := NilFrame; stream_Err := Some "reset" |} ]
                          tailWorld) ordersStag)).
Proof.
  assert (Hdone : outcome (TailLogs tailWorld ordersStag) = Done tt) by reflexivity.
  split; [exact (proj2 (proj1 (TailLogs_closes_stream_iff_it_returns _ _)) Hdone) | ].
  split; [exact Hdone | ].
  intros Hin.
  apply (proj1 (proj1 (TailLogs_closes_stream_iff_it_returns _ _))) in Hin.
  discriminate Hin.
Defined.

(** ** The log group identifier *)

Lemma substring_split (n : nat) :
  forall s : string,
    (n <= String.length s)%nat ->
    substring 0 n s ++ substring n (String.length s - n) s = s.
Proof.
  induction n as [ | n IH]; intros s Hlen.
  - rewrite Nat.sub_0_r, substring_all. now destruct s.
  - destruct s as [ | c s]; cbn [String.length] in Hlen; [lia | ].
    cbn [substring String.length Nat.sub]. rewrite append_String.
    f_equal. apply IH. lia.
Qed.

Lemma TrimSuffix_restores (s suffix : string) :
  HasSuffix s suffix = true -> TrimSuffix s suffix ++ suffix = s.
Proof.
  intros H. unfold TrimSuffix. rewrite H. unfold HasSuffix in H.
  apply andb_prop in H as [Hlen Heq].
  apply Nat.leb_le in Hlen. apply String.eqb_eq in Heq.
  pose proof (substring_split (String.length s - String.length suffix) s
                ltac:(lia)) as Hsplit.
  replace (String.length s - (String.length s - String.length suffix))%nat
    with (String.length suffix) in Hsplit by lia.
  now rewrite Heq in Hsplit.
Qed.

(** X19: the identifier [getARNofLogGroup] returns and the ARN of the first
    log group determine each other: either the ARN is the identifier followed
    by [:*], or the ARN does not end in [:*] and the identifier is the ARN
    itself.  Nothing but one trailing [:*] is ever removed. *)
Theorem getARNofLogGroup_restores_arn
    (w : World) (Config : DeployConfig) (t : list Event) (id : string) :
  getARNofLogGroup w Config = (t, Done id) ->
  exists output first rest arn,
    DescribeLogGroups_by_prefix w = Ok output /\
    cloudwatchlogs.LogGroups output = first :: rest /\
    cloudwatchlogs.Arn first = Some arn /\
    (arn = id ++ ":*" \/ (id = arn /\ forall a, arn <> a ++ ":*")).
Proof.
  intros H.
  apply getARNofLogGroup_Done_inv in H
    as (_ & output & first & rest & arn & Hanswer & Hgroups & Harn & ->).
  exists output, first, rest, arn. repeat split; try assumption.
  destruct (HasSuffix arn ":*") eqn:Hsuffix.
  - left. symmetry. now apply TrimSuffix_restores.
  - right. split; [unfold TrimSuffix; now rewrite Hsuffix | ].
    intros a ->. now rewrite HasSuffix_append in Hsuffix.
Qed.

Lemma getARNofLogGroup_restores_arn_witness :
  getARNofLogGroup tailWorld ordersStag
    = ([Called (DescribeLogGroups (Some "/aws/lambda/orders-stag") None)],
       Done "arn:aws:logs:us-east-1:123456789012:log-group:/aws/lambda/orders-stag") /\
  exists first arn,
    cloudwatchlogs.Arn first = Some arn /\
    arn = "arn:aws:logs:us-east-1:123456789012:log-group:/aws/lambda/orders-stag" ++ ":*".
Proof.
  split; [reflexivity | ].
  destruct (getARNofLogGroup_restores_arn tailWorld ordersStag _ _ eq_refl)
    as (output & first & rest & arn & Hanswer & Hgroups & Harn & [Hsuffix | (Hsame & Hno)]).
  - now exists first, arn.
  - injection Hanswer as <-. cbn in Hgroups. injection Hgroups as <- _.
    cbn in Harn. injection Harn as <-. discriminate Hsame.
Defined.

(** ** Listings that fail *)

Section FailingPage.

Variable pages : list (list string * string).
Variable e : error.

Lemma GetAvailableFunctions_loop_fails
    (unread : list (Result lambda.ListFunctionsOutput)) :
  forall (ps : list (list string * string)) (names : list string) (marker : option string),
    GetAvailableFunctions_loop
      (map (fun p => functionsPage (fst p) (Some (snd p))) ps ++ Err e :: unread)%list
      names marker =
    ((map (fun m => Called (ListFunctions m)) (marker :: map (fun p => Some (snd p)) ps)
      ++ [Stdout ("Error listing Lambda functions:" ++ " " ++ e ++ nl)])%list, Exit 1).
Proof.
  induction ps as [ | [page token] ps IH]; intros names marker;
    cbn [map app GetAvailableFunctions_loop fst snd]; unfold functionsPage; step.
  - reflexivity.
  - cbn [lambda.Functions lambda.NextMarker].
    rewrite functionsPage_names, appendNames_present. step.
    now rewrite IH.
Qed.

Lemma getAvailableLogGroups_loop_fails
    (unread : list (Result cloudwatchlogs.DescribeLogGroupsOutput)) :
  forall (ps : list (list string * string)) (names : list string) (token : option string),
    getAvailableLogGroups_loop
      (map (fun p => logGroupsPage (fst p) (Some (snd p))) ps ++ Err e :: unread)%list
      names token =
    ((map (fun m => Called (DescribeLogGroups None m))
          (token :: map (fun p => Some (snd p)) ps)
      ++ [Stdout ("Error describing log groups:" ++ " " ++ e ++ nl)])%list, Exit 1).
Proof.
  induction ps as [ | [page tok] ps IH]; intros names token;
    cbn [map app getAvailableLogGroups_loop fst snd]; unfold logGroupsPage; step.
  - reflexivity.
  - cbn [cloudwatchlogs.LogGroups cloudwatchlogs.NextToken].
    rewrite logGroupsPage_names, appendNames_present. step.
    now rewrite IH.
Qed.

(** X20: a listing that fails on any page fails as a whole: after the pages
    that were served, the request for the next one is sent, its error is
    printed, and the run exits with status 1; the names already collected are
    not used. *)
Theorem listings_fail_on_a_failing_page (w : World) :
  (forall unread,
     ListFunctions_script w =
       (map (fun p => functionsPage (fst p) (Some (snd p))) pages ++ Err e :: unread)%list ->
     GetAvailableFunctions w =
       ((map (fun m => Called (ListFunctions m)) (tokensSent pages)
         ++ [Stdout ("Error listing Lambda functions:" ++ " " ++ e ++ nl)])%list, Exit 1)) /\
  (forall unread,
     DescribeLogGroups_script w =
       (map (fun p => logGroupsPage (fst p) (Some (snd p))) pages ++ Err e :: unread)%list ->
     getAvailableLogGroups w =
       ((map (fun m => Called (DescribeLogGroups None m)) (tokensSent pages)
         ++ [Stdout ("Error describing log groups:" ++ " " ++ e ++ nl)])%list, Exit 1)).
Proof.
  split; intros unread Hscript.
  - unfold GetAvailableFunctions. rewrite Hscript. apply GetAvailableFunctions_loop_fails.
  - unfold getAvailableLogGroups. rewrite Hscript. apply getAvailableLogGroups_loop_fails.
Qed.

End FailingPage.

Lemma listings_fail_on_a_failing_page_witness :
  let w := ordersWorld true (cleanTree "abc1234")
             [functionsPage ["orders-stag"] (Some "page2"); Err "throttled"]
             [logGroupsPage ["/aws/lambda/orders-stag"] (Some "page2"); Err "throttled"] [] in
  GetAvailableFunctions w =
    ([ Called (ListFunctions None); Called (ListFunctions (Some "page2"));
       Stdout ("Error listing Lambda functions: throttled" ++ nl) ], Exit 1) /\
  outcome (runDeploy w) = Exit 1.
Proof.
  intros w. split; [ | reflexivity].
  exact (proj1 (listings_fail_on_a_failing_page [(["orders-stag"], "page2")] "throttled" w)
               [] eq_refl).
Defined.

(** ** The build and the resolution *)

(** X21: git and the compiler are not run for a target that does not resolve:
    every call to git or to [go build] in a run comes after the listings of
    functions and buckets have completed and the configured function and
    bucket have been found in them. *)
Theorem runDeploy_builds_after_resolution
    (w : World) (pre post : list Event) (c : Call) :
  trace (runDeploy w) = (pre ++ Called c :: post)%list ->
  isBuildCall c = true ->
  exists t Config,
    LoadConfigOrDefaults w = (t, Done Config) /\
    confirmed (GetAvailableFunctions w) (LambdaName Config) pre /\
    confirmed (GetAvailableBuckets w) (BuildsBucket Config) pre.
Proof.
  intros Htrace Hc. unfold runDeploy in Htrace.
  apply (call_after_avoiding isBuildCall) in Htrace
    as (tc & Config & r1 & Hconfig & -> & Htrace);
    [ | unfold LoadConfigOrDefaults, getAppName; cbv zeta; avoid | assumption].
  apply (call_after_avoiding isBuildCall) in Htrace
    as (ti & [] & r2 & Hinit & -> & Htrace);
    [ | unfold InitAWSClient; avoid | assumption].
  apply (call_after_avoiding isBuildCall) in Htrace
    as (tf & functions & r3 & Hfunctions & -> & Htrace);
    [ | now apply avoids_GetAvailableFunctions | assumption].
  destruct (contains functions (LambdaName Config)) eqn:Hfunction; cbn [negb] in Htrace.
  2:{ apply (call_after_avoiding isBuildCall) in Htrace as (? & ? & ? & Hstop & _);
        [discriminate Hstop | reflexivity | assumption]. }
  rewrite bind_ret in Htrace.
  apply (call_after_avoiding isBuildCall) in Htrace
    as (tb & buckets & r4 & Hbuckets & -> & Htrace);
    [ | unfold GetAvailableBuckets; avoid | assumption].
  destruct (contains buckets (BuildsBucket Config)) eqn:Hbucket; cbn [negb] in Htrace.
  2:{ apply (call_after_avoiding isBuildCall) in Htrace as (? & ? & ? & Hstop & _);
        [discriminate Hstop | reflexivity | assumption]. }
  exists tc, Config. split; [assumption | ]. split.
  - exists tf, functions, (tc ++ ti)%list, (tb ++ r4)%list.
    repeat split; try assumption. now rewrite <- !app_assoc.
  - exists tb, buckets, (tc ++ ti ++ tf)%list, r4.
    repeat split; try assumption. now rewrite <- !app_assoc.
Qed.

Lemma runDeploy_builds_after_resolution_witness :
  let run := trace (runDeploy tailWorld) in
  nth_error run 5 = Some (Called GitRevParseHEAD) /\
  exists t Config,
    LoadConfigOrDefaults tailWorld = (t, Done Config) /\
    confirmed (GetAvailableFunctions tailWorld) (LambdaName Config) (firstn 5 run) /\
    confirmed (GetAvailableBuckets tailWorld) (BuildsBucket Config) (firstn 5 run).
Proof.
  intros run. split; [reflexivity | ].
  exact (runDeploy_builds_after_resolution tailWorld (firstn 5 run) (skipn 6 run)
           GitRevParseHEAD eq_refl eq_refl).
Defined.

(** X22: a [Build] that returns has run the compiler once, for linux, with cgo
    disabled and for the architecture of the deployed function ([arm64] when
    that is the first architecture the platform reports, [amd64] otherwise),
    stamping the binary with the revision string read before compiling. *)
Theorem Build_compiles_for_the_function_architecture
    (w : World) (Config Config' : DeployConfig) (t : list Event) :
  Build w Config = (t, Done Config') ->
  exists tg commit first rest,
    getCurrentGitCommit (git_for_ldflags w) = (tg, Done commit) /\
    GetFunctionConfiguration_answer w = Ok {| lambda.Architectures := first :: rest |} /\
    calls (fun c => match c with GoBuild _ _ => true | _ => false end) t =
      [ GoBuild ("-s -w -X main.Commit=" ++ commit
                 ++ " -X microservice.CommitHash=" ++ commit)
                [ "GOARCH=" ++ (if String.eqb first "arm64" then "arm64" else "amd64");
                  "CGO_ENABLED=0"; "GOOS=linux" ] ].
Proof.
  intros H.
  apply Build_Done_inv in H
    as (_ & commit & goarch & name & Hgit & _ & _ & tarch & Harch & ->).
  apply determineFunctionArch_Done_inv in Harch as (first & rest & Hanswer & -> & ->).
  eexists. exists commit, first, rest. repeat split; try eassumption.
Qed.

Lemma Build_compiles_for_the_function_architecture_witness :
  calls (fun c => match c with GoBuild _ _ => true | _ => false end)
        (trace (Build tailWorld ordersStag)) =
    [ GoBuild "-s -w -X main.Commit=abc1234 -X microservice.CommitHash=abc1234"
              ["GOARCH=arm64"; "CGO_ENABLED=0"; "GOOS=linux"] ].
Proof.
  destruct (Build tailWorld ordersStag) as [t [Config' | | | ]] eqn:HBuild;
    try discriminate HBuild.
  destruct (Build_compiles_for_the_function_architecture _ _ _ _ HBuild)
    as (tg & commit & first & rest & Hgit & Hanswer & Hcalls).
  injection Hgit as _ <-. injection Hanswer as <- _.
  exact Hcalls.
Defined.

Lemma calls_In_trace (p : Call -> bool) (c : Call) (t : list Event) :
  In c (calls p t) -> In (Called c) t.
Proof.
  induction t as [ | e t IH]; cbn [calls]; [contradiction | ].
  destruct e as [c0 | | | ]; try (intros H; right; now apply IH).
  destruct (p c0); [intros [-> | H]; [now left | right; now apply IH] | ].
  intros H. right. now apply IH.
Qed.

(** X23: the log tail belongs to a completed deployment: every call to
    CloudWatch Logs in a run is made under [--tail] and after [Deploy] has
    returned, so after the alias [canary] has been repointed to the version
    just published. *)
Theorem runDeploy_tails_after_deployment
    (w : World) (pre post : list Event) (c : Call) :
  trace (runDeploy w) = (pre ++ Called c :: post)%list ->
  isCloudwatchCall c = true ->
  tail w = true /\
  exists fn version,
    PublishVersion_answer w = Ok {| lambda.Version := Some version |} /\
    In (Called (UpdateAlias fn "canary" (Some version))) pre.
Proof.
  intros Htrace Hc. unfold runDeploy in Htrace.
  apply (call_after_avoiding isCloudwatchCall) in Htrace
    as (tc & Config0 & r1 & _ & -> & Htrace);
    [ | unfold LoadConfigOrDefaults, getAppName; cbv zeta; avoid | assumption].
  apply (call_after_avoiding isCloudwatchCall) in Htrace
    as (ti & [] & r2 & _ & -> & Htrace);
    [ | unfold InitAWSClient; avoid | assumption].
  apply (call_after_avoiding isCloudwatchCall) in Htrace
    as (tf & functions & r3 & _ & -> & Htrace);
    [ | now apply avoids_GetAvailableFunctions | assumption].
  apply (call_after_avoiding isCloudwatchCall) in Htrace
    as (t1 & [] & r4 & _ & -> & Htrace); [ | avoid | assumption].
  apply (call_after_avoiding isCloudwatchCall) in Htrace
    as (tb & buckets & r5 & _ & -> & Htrace);
    [ | unfold GetAvailableBuckets; avoid | assumption].
  apply (call_after_avoiding isCloudwatchCall) in Htrace
    as (t2 & [] & r6 & _ & -> & Htrace); [ | avoid | assumption].
  apply (call_after_avoiding isCloudwatchCall) in Htrace
    as (tB & Config & r7 & _ & -> & Htrace);
    [ | now apply avoids_Build | assumption].
  apply (call_after_avoiding isCloudwatchCall) in Htrace
    as (tD & [] & r8 & HDeploy & -> & Htrace);
    [ | apply avoids_cloudwatch_Deploy | assumption].
  destruct (tail w).
  2:{ cbn in Htrace. now destruct r8. }
  split; [reflexivity | ].
  apply Deploy_Done_inv in HDeploy as (_ & _ & _ & _ & _ & version & Hversion & Hcalls).
  exists (LambdaName Config), version. split; [assumption | ].
  do 7 (apply in_or_app; right). apply in_or_app; left.
  apply (calls_In_trace mutating). rewrite Hcalls. cbn. auto.
Qed.

Lemma runDeploy_tails_after_deployment_witness :
  let run := trace (runDeploy tailWorld) in
  nth_error run 27 = Some (Called (DescribeLogGroups None None)) /\
  tail tailWorld = true /\
  exists fn version, In (Called (UpdateAlias fn "canary" (Some version))) (firstn 27 run).
Proof.
  intros run. split; [reflexivity | ].
  destruct (runDeploy_tails_after_deployment tailWorld (firstn 27 run) (skipn 28 run)
              (DescribeLogGroups None None) eq_refl eq_refl)
    as (Htail & fn & version & _ & Hin).
  split; [exact Htail | ]. now exists fn, version.
Defined.
